(** * gen-test-file.py: the fixture generator of the tub repository

    A shallow embedding of [gen-test-file.py] and the properties of the
    records it writes to [test.btdb].

    The script draws a random payload from [os.getrandom], hashes it with
    [hashlib.blake2b] at a 30-byte digest, and appends
    [digest || 8-byte little-endian length || payload] to a file opened
    for exclusive creation, 100_000 times.

    Layout of the development:
    - [bytes] and the integer conversions [int.from_bytes] / [int.to_bytes];
    - [Blake2b]: the hash of RFC 7693, as [hashlib.blake2b] computes it
      with no key, salt or personalisation;
    - the world the script runs in (the files, the table of open file
      objects with their buffers, what of each file has reached the
      disk, the replies of the random source, the room the disk has for
      each write, module globals, and the history of effects) and a
      state-and-exception monad over it;
    - the functions of the script, in source order;
    - what turns, loops and runs are expected to do, as predicates;
    - the properties.

    What the world leaves out:
    - the shutdown of the interpreter, which flushes the buffer of the
      file object that the script leaves open: the world of a run is
      the one right after the last statement of the script;
    - failures of [print], and failures of [open] other than an
      existing target;
    - signals: a read of the random source is one call that returns
      bytes or fails. It may return fewer bytes than asked for, as the
      documentation of [os.getrandom] allows. *)

From Stdlib Require Import ZArith List Lia Strings.Byte Ascii String DecimalString.
From stdpp Require Import base option list gmap strings.

Local Open Scope Z_scope.

(** ** Byte strings *)

Abbreviation bytes := (list byte).

Definition byte_val (b : byte) : Z := Z.of_N (Byte.to_N b).

Definition byte_of (z : Z) : byte :=
  match Byte.of_N (Z.to_N (z mod 256)) with
  | Some b => b
  | None => x00
  end.

(** [int.from_bytes(b, 'little')] *)
Fixpoint int_from_bytes_little (b : bytes) : Z :=
  match b with
  | [] => 0
  | x :: rest => byte_val x + 256 * int_from_bytes_little rest
  end.

(** The [length] low-order bytes of [n], least significant first. *)
Fixpoint le_digits (length : nat) (n : Z) : bytes :=
  match length with
  | O => []
  | S k => byte_of n :: le_digits k (n / 256)
  end.

(** ** BLAKE2b (RFC 7693), unkeyed, sequential mode *)

Module Blake2b.

(** Reduction to 64 bits, as a mask. *)
Definition w64 (z : Z) : Z := Z.land z 0xffffffffffffffff.

Definition rotr64 (x n : Z) : Z :=
  Z.lor (Z.shiftr x n) (w64 (Z.shiftl x (64 - n))).

Definition IV : list Z :=
  [ 0x6a09e667f3bcc908; 0xbb67ae8584caa73b;
    0x3c6ef372fe94f82b; 0xa54ff53a5f1d36f1;
    0x510e527fade682d1; 0x9b05688c2b3e6c1f;
    0x1f83d9abfb41bd6b; 0x5be0cd19137e2179 ].

Definition SIGMA : list (list nat) :=
  [ [ 0;  1;  2;  3;  4;  5;  6;  7;  8;  9; 10; 11; 12; 13; 14; 15];
    [14; 10;  4;  8;  9; 15; 13;  6;  1; 12;  0;  2; 11;  7;  5;  3];
    [11;  8; 12;  0;  5;  2; 15; 13; 10; 14;  3;  6;  7;  1;  9;  4];
    [ 7;  9;  3;  1; 13; 12; 11; 14;  2;  6;  5; 10;  4;  0; 15;  8];
    [ 9;  0;  5;  7;  2;  4; 10; 15; 14;  1; 11; 12;  6;  8;  3; 13];
    [ 2; 12;  6; 10;  0; 11;  8;  3;  4; 13;  7;  5; 15; 14;  1;  9];
    [12;  5;  1; 15; 14; 13;  4; 10;  0;  7;  6;  3;  9;  2;  8; 11];
    [13; 11;  7; 14; 12;  1;  3;  9;  5;  0; 15;  4;  8;  6;  2; 10];
    [ 6; 15; 14;  9; 11;  3;  0;  8; 12;  2; 13;  7;  1;  4; 10;  5];
    [10;  2;  8;  4;  7;  6;  1;  5; 15; 11;  9; 14;  3; 12; 13;  0] ]%nat.

Definition word (v : list Z) (i : nat) : Z := nth i v 0.

(** The mixing function G on the work vector. *)
Definition G (v : list Z) (a b c d : nat) (x y : Z) : list Z :=
  let v := <[a := w64 (word v a + word v b + x)]> v in
  let v := <[d := rotr64 (Z.lxor (word v d) (word v a)) 32]> v in
  let v := <[c := w64 (word v c + word v d)]> v in
  let v := <[b := rotr64 (Z.lxor (word v b) (word v c)) 24]> v in
  let v := <[a := w64 (word v a + word v b + y)]> v in
  let v := <[d := rotr64 (Z.lxor (word v d) (word v a)) 16]> v in
  let v := <[c := w64 (word v c + word v d)]> v in
  <[b := rotr64 (Z.lxor (word v b) (word v c)) 63]> v.

Definition round (m : list Z) (v : list Z) (r : nat) : list Z :=
  let s := nth (r mod 10) SIGMA [] in
  let mw (k : nat) := word m (nth k s O) in
  let v := G v 0 4  8 12 (mw 0%nat) (mw 1%nat) in
  let v := G v 1 5  9 13 (mw 2%nat) (mw 3%nat) in
  let v := G v 2 6 10 14 (mw 4%nat) (mw 5%nat) in
  let v := G v 3 7 11 15 (mw 6%nat) (mw 7%nat) in
  let v := G v 0 5 10 15 (mw 8%nat) (mw 9%nat) in
  let v := G v 1 6 11 12 (mw 10%nat) (mw 11%nat) in
  let v := G v 2 7  8 13 (mw 12%nat) (mw 13%nat) in
  G v 3 4  9 14 (mw 14%nat) (mw 15%nat).

(** The sixteen 64-bit little-endian words of a block; a short block
    reads as if padded with zero bytes. *)
Definition block_words (block : bytes) : list Z :=
  map (fun i => int_from_bytes_little (firstn 8 (skipn (8 * i) block)))
      (seq 0 16).

(** The compression function F: [t] is the number of bytes fed so far,
    this block included. *)
Definition compress (h : list Z) (block : bytes) (t : Z) (last : bool)
  : list Z :=
  let m := block_words block in
  let v := h ++ IV in
  let v := <[12%nat := Z.lxor (word v 12) (w64 t)]> v in
  let v := <[13%nat := Z.lxor (word v 13) (w64 (Z.shiftr t 64))]> v in
  let v := if last
           then <[14%nat := Z.lxor (word v 14) 0xffffffffffffffff]> v
           else v in
  let v := fold_left (round m) (seq 0 12) v in
  map (fun i => Z.lxor (Z.lxor (word h i) (word v i)) (word v (i + 8)))
      (seq 0 8).

(** Cut the input into 128-byte blocks. A block is emitted only once a
    further byte arrives, so the last block is non-empty unless the
    whole input is empty, and may be full. *)
Fixpoint blocks_from (cur : bytes) (data : bytes) : list bytes :=
  match data with
  | [] => [cur]
  | x :: rest =>
      if (length cur =? 128)%nat
      then cur :: blocks_from [x] rest
      else blocks_from (cur ++ [x]) rest
  end.

Fixpoint absorb (h : list Z) (t : Z) (bs : list bytes) : list Z :=
  match bs with
  | [] => h
  | [final] => compress h final (t + Z.of_nat (length final)) true
  | b :: rest => absorb (compress h b (t + 128) false) (t + 128) rest
  end.

(** Parameter block of the unkeyed sequential mode: digest length [nn],
    key length 0, fanout 1, depth 1. *)
Definition init (nn : nat) : list Z :=
  <[0%nat := Z.lxor (word IV 0) (Z.lxor 0x01010000 (Z.of_nat nn))]> IV.

Definition digest (data : bytes) (nn : nat) : bytes :=
  firstn nn (concat (map (le_digits 8) (absorb (init nn) 0 (blocks_from [] data)))).

End Blake2b.

Definition hexdigit (n : Z) : ascii :=
  nth (Z.to_nat n) (list_ascii_of_string "0123456789abcdef") "0"%char.

(** [bytes.hex()] *)
Fixpoint hex (b : bytes) : string :=
  match b with
  | [] => EmptyString
  | x :: rest =>
      String (hexdigit (byte_val x / 16))
        (String (hexdigit (byte_val x mod 16)) (hex rest))
  end.

Definition bytes_of_string (s : string) : bytes := list_byte_of_string s.

(** [str(n)] for a Python [int] *)
Definition str (n : Z) : string := NilZero.string_of_int (Z.to_int n).

(** [len(b)] *)
Definition len (b : bytes) : Z := Z.of_nat (length b).

(** ** Exceptions and results *)

Inductive oserror :=
| GetrandomInvalid   (* negative size *)
| GetrandomFailed    (* the random source cannot be read *)
| WriteFailed.       (* the write to the file failed *)

Inductive exn :=
| FileExistsError
| OSError (why : oserror)
| OverflowError
| ValueError
| NameError (name : string).

Inductive result (A : Type) :=
| Ok (a : A)
| Raise (e : exn).
Arguments Ok {A} a.
Arguments Raise {A} e.

(** [n.to_bytes(length, 'little')]: raises [OverflowError] when [n] is
    negative or does not fit. *)
Definition to_bytes_little (n : Z) (length : nat) : result bytes :=
  if (0 <=? n) && (n <? 256 ^ Z.of_nat length)
  then Ok (le_digits length n)
  else Raise OverflowError.

(** ** The world of the script *)

(** What the script did to the outside, in order. Each call is recorded
    with its outcome. *)
Inductive event :=
| EvOpen (path : string) (handle : option nat)
| EvGetrandom (size : Z) (reply : option bytes)
| EvPrint (line : string)
| EvWrite (handle : nat) (data : bytes) (fault : option nat)
| EvClose (handle : nat).

Record World := mkWorld {
  (** files by path, as the programs that wrote them see them: all the
      bytes that file objects took, flushed or not *)
  fs : gmap string bytes;
  (** open file objects and the path each one writes to *)
  fds : gmap nat string;
  (** what the random source will answer, call by call: [Some b] offers
      the bytes [b] (a caller asking for fewer gets a prefix, a caller
      asking for more gets them all), [None] is a failure; an exhausted
      source fails *)
  entropy : list (option bytes);
  (** the room on the disk during the calls of [write] to come, call by
      call: with [Some j] the disk takes [j] more bytes during the call
      and then fails, with [None] it takes all it is given; once
      exhausted, it takes all. A call that does not reach the disk
      passes whatever the room *)
  write_faults : list (option nat);
  (** the effects so far, oldest first *)
  history : list event;
  (** module globals; [None] is an unbound name *)
  var_fp : option nat;
  var_total : option Z;
  var_i : option nat;
  var_buf : option bytes;
  (** what of each file has reached the disk *)
  disk : gmap string bytes;
  (** the bytes each open file object holds in its buffer, taken from
      the program and not yet on disk *)
  buffers : gmap nat bytes;
  (** the size of the buffer of a file object ([io.DEFAULT_BUFFER_SIZE]
      or the block size of the device) *)
  buffer_size : nat
}.

Definition with_fs (x : gmap string bytes) (w : World) : World :=
  mkWorld x (fds w) (entropy w) (write_faults w) (history w)
          (var_fp w) (var_total w) (var_i w) (var_buf w)
          (disk w) (buffers w) (buffer_size w).
Definition with_fds (x : gmap nat string) (w : World) : World :=
  mkWorld (fs w) x (entropy w) (write_faults w) (history w)
          (var_fp w) (var_total w) (var_i w) (var_buf w)
          (disk w) (buffers w) (buffer_size w).
Definition with_entropy (x : list (option bytes)) (w : World) : World :=
  mkWorld (fs w) (fds w) x (write_faults w) (history w)
          (var_fp w) (var_total w) (var_i w) (var_buf w)
          (disk w) (buffers w) (buffer_size w).
Definition with_write_faults (x : list (option nat)) (w : World) : World :=
  mkWorld (fs w) (fds w) (entropy w) x (history w)
          (var_fp w) (var_total w) (var_i w) (var_buf w)
          (disk w) (buffers w) (buffer_size w).
Definition log (e : event) (w : World) : World :=
  mkWorld (fs w) (fds w) (entropy w) (write_faults w) (history w ++ [e])
          (var_fp w) (var_total w) (var_i w) (var_buf w)
          (disk w) (buffers w) (buffer_size w).
Definition with_fp (x : option nat) (w : World) : World :=
  mkWorld (fs w) (fds w) (entropy w) (write_faults w) (history w)
          x (var_total w) (var_i w) (var_buf w)
          (disk w) (buffers w) (buffer_size w).
Definition with_total (x : option Z) (w : World) : World :=
  mkWorld (fs w) (fds w) (entropy w) (write_faults w) (history w)
          (var_fp w) x (var_i w) (var_buf w)
          (disk w) (buffers w) (buffer_size w).
Definition with_i (x : option nat) (w : World) : World :=
  mkWorld (fs w) (fds w) (entropy w) (write_faults w) (history w)
          (var_fp w) (var_total w) x (var_buf w)
          (disk w) (buffers w) (buffer_size w).
Definition with_buf (x : option bytes) (w : World) : World :=
  mkWorld (fs w) (fds w) (entropy w) (write_faults w) (history w)
          (var_fp w) (var_total w) (var_i w) x
          (disk w) (buffers w) (buffer_size w).
Definition with_disk (x : gmap string bytes) (w : World) : World :=
  mkWorld (fs w) (fds w) (entropy w) (write_faults w) (history w)
          (var_fp w) (var_total w) (var_i w) (var_buf w)
          x (buffers w) (buffer_size w).
Definition with_buffers (x : gmap nat bytes) (w : World) : World :=
  mkWorld (fs w) (fds w) (entropy w) (write_faults w) (history w)
          (var_fp w) (var_total w) (var_i w) (var_buf w)
          (disk w) x (buffer_size w).

(** What a path holds, what of it is on disk, and what a file object
    has in its buffer. *)
Definition file_at (w : World) (path : string) : bytes :=
  default [] (fs w !! path).

Definition disk_at (w : World) (path : string) : bytes :=
  default [] (disk w !! path).

Definition buffer_of (w : World) (h : nat) : bytes :=
  default [] (buffers w !! h).

(** ** Computations: state over [World], with exceptions

    A raised exception keeps the world reached so far. *)

Definition M (A : Type) : Type := World -> result A * World.

Definition ret {A} (a : A) : M A := fun w => (Ok a, w).

Definition raise {A} (e : exn) : M A := fun w => (Raise e, w).

Definition bind {A B} (m : M A) (k : A -> M B) : M B :=
  fun w =>
    match m w with
    | (Ok a, w') => k a w'
    | (Raise e, w') => (Raise e, w')
    end.

Definition lift {A} (r : result A) : M A := fun w => (r, w).

Declare Scope prog_scope.
Delimit Scope prog_scope with prog.
Notation "x <- m ;; k" := (bind m (fun x => k))
  (at level 100, m at next level, k at level 200, right associativity) : prog_scope.
Notation "m ;; k" := (bind m (fun _ => k))
  (at level 100, k at level 200, right associativity) : prog_scope.
Local Open Scope prog_scope.

(** *** Module globals *)

Definition lookup_name {A} (name : string) (var : World -> option A) : M A :=
  fun w =>
    match var w with
    | Some v => (Ok v, w)
    | None => (Raise (NameError name), w)
    end.

Definition get_fp : M nat := lookup_name "fp" var_fp.
Definition get_total : M Z := lookup_name "total" var_total.
Definition get_buf : M bytes := lookup_name "buf" var_buf.

Definition set_fp (h : nat) : M unit := fun w => (Ok tt, with_fp (Some h) w).
Definition set_total (n : Z) : M unit := fun w => (Ok tt, with_total (Some n) w).
Definition set_i (n : nat) : M unit := fun w => (Ok tt, with_i (Some n) w).
Definition set_buf (b : bytes) : M unit := fun w => (Ok tt, with_buf (Some b) w).

(** *** The library calls of the script *)

(** [os.getrandom(size)]: one read of the random source, which returns
    at most [size] bytes. *)
Definition getrandom (size : Z) : M bytes :=
  fun w =>
    if size <? 0 then
      (Raise (OSError GetrandomInvalid), log (EvGetrandom size None) w)
    else
      match entropy w with
      | Some offered :: rest =>
          let got := firstn (Z.to_nat size) offered in
          (Ok got, log (EvGetrandom size (Some got)) (with_entropy rest w))
      | None :: rest =>
          (Raise (OSError GetrandomFailed),
           log (EvGetrandom size None) (with_entropy rest w))
      | [] =>
          (Raise (OSError GetrandomFailed), log (EvGetrandom size None) w)
      end.

(** [open(path, 'xb')]: exclusive creation for binary writing. The
    file is created empty, on disk too, and the file object starts with
    an empty buffer. *)
Definition open_xb (path : string) : M nat :=
  fun w =>
    match fs w !! path with
    | Some _ => (Raise FileExistsError, log (EvOpen path None) w)
    | None =>
        let h := fresh (dom (fds w)) in
        (Ok h, log (EvOpen path (Some h))
                   (with_buffers (<[h := []]> (buffers w))
                      (with_disk (<[path := []]> (disk w))
                         (with_fds (<[h := path]> (fds w))
                            (with_fs (<[path := []]> (fs w)) w)))))
    end.

(** How many of [n] bytes the disk takes when it has [room]. *)
Definition disk_takes (room : option nat) (n : nat) : nat :=
  match room with
  | Some j => Nat.min j n
  | None => n
  end.

(** What one call of [write] on a buffered writer comes to. *)
Record written := mkWritten {
  (** the call returned, it did not raise *)
  passed : bool;
  (** the bytes the call sent to the disk, in order *)
  to_disk : bytes;
  (** the buffer after the call *)
  kept : bytes;
  (** what of the data the file object took, into its buffer or to the
      disk *)
  taken : bytes
}.

(** [BufferedWriter.write], the writer behind a file opened in binary
    mode, with [buffered] in its buffer of [size] bytes:
    - data that fit in what is left of the buffer are copied there, and
      nothing reaches the disk;
    - else the buffer is flushed first; a disk that does not take it all
      makes the call raise, and the buffer keeps what was not taken;
    - data longer than the buffer then go to the disk directly, until
      the rest fits in the buffer; a disk that fails before that makes
      the call raise;
    - the rest of the data is copied to the buffer. *)
Definition buffered_write (size : nat) (room : option nat)
    (buffered data : bytes) : written :=
  if (length data <=? size - length buffered)%nat then
    mkWritten true [] (buffered ++ data) data
  else
    let flushed := disk_takes room (length buffered) in
    if (flushed <? length buffered)%nat then
      mkWritten false (firstn flushed buffered) (skipn flushed buffered) []
    else if (length data <=? size)%nat then
      mkWritten true buffered data data
    else
      let room' := (fun j => j - length buffered)%nat <$> room in
      let direct := disk_takes room' (length data) in
      if (size <? length data - direct)%nat then
        mkWritten false (buffered ++ firstn direct data) [] (firstn direct data)
      else
        mkWritten true (buffered ++ firstn direct data) (skipn direct data) data.

(** [fp.write(buf)] on a file opened in binary mode: the call goes
    through the buffer of the file object. A call that passes returns
    the number of bytes it was given. *)
Definition file_write (h : nat) (data : bytes) : M Z :=
  fun w =>
    match fds w !! h with
    | None => (Raise ValueError, w)
    | Some path =>
        let room := default None (head (write_faults w)) in
        let out :=
          buffered_write (buffer_size w) room (default [] (buffers w !! h)) data in
        let w' :=
          with_write_faults (tail (write_faults w))
            (with_buffers (<[h := kept out]> (buffers w))
               (with_disk
                  (<[path := default [] (disk w !! path) ++ to_disk out]> (disk w))
                  (with_fs
                     (<[path := default [] (fs w !! path) ++ taken out]> (fs w))
                     w))) in
        if passed out
        then (Ok (len data), log (EvWrite h data None) w')
        else (Raise (OSError WriteFailed), log (EvWrite h data room) w')
    end.

(** [fp.close()]: the buffer is flushed and the file object leaves the
    table of the open ones, also when the flush fails. Nothing in the
    script calls it. *)
Definition file_close (h : nat) : M unit :=
  fun w =>
    match fds w !! h with
    | None => (Ok tt, w)
    | Some path =>
        let room := default None (head (write_faults w)) in
        let buffered := default [] (buffers w !! h) in
        let flushed := disk_takes room (length buffered) in
        let w' :=
          log (EvClose h)
            (with_write_faults (tail (write_faults w))
               (with_buffers (delete h (buffers w))
                  (with_disk
                     (<[path := default [] (disk w !! path)
                                ++ firstn flushed buffered]> (disk w))
                     (with_fds (delete h (fds w)) w)))) in
        if (flushed <? length buffered)%nat
        then (Raise (OSError WriteFailed), w')
        else (Ok tt, w')
    end.

(** [print(...)]: the arguments separated by one space, as one line. *)
Definition print (args : list string) : M unit :=
  fun w => (Ok tt, log (EvPrint (String.concat " " args)) w).

(** [for i in range(n): body], entered at [i = start]. *)
Fixpoint for_from (start : nat) (n : nat) (body : nat -> M unit) : M unit :=
  match n with
  | O => ret tt
  | S k => body start ;; for_from (S start) k body
  end.

Definition for_range (n : nat) (body : nat -> M unit) : M unit :=
  for_from 0 n body.

(** ** The script *)

Definition hash_data (data : bytes) : bytes := Blake2b.digest data 30.

Definition random_size : M Z :=
  b <- getrandom 2 ;;
  ret (int_from_bytes_little b).

Definition random_data : M bytes :=
  n <- random_size ;;
  getrandom n.

(** Lines 19 to 22 of [random_entry]: what happens to the payload [d]
    once it is drawn. *)
Definition encode_entry (d : bytes) : M bytes :=
  let h := hash_data d in
  s <- lift (to_bytes_little (len d) 8) ;;
  print [hex h; str (len d)] ;;
  ret (concat [h; s; d]).

Definition random_entry : M bytes :=
  d <- random_data ;;
  encode_entry d.

Definition target : string := "test.btdb".

(** One turn of the loop. [total += fp.write(buf)] loads [total] before
    it calls [fp.write]. *)
Definition loop_body (i : nat) : M unit :=
  set_i i ;;
  b <- random_entry ;;
  set_buf b ;;
  t <- get_total ;;
  h <- get_fp ;;
  data <- get_buf ;;
  n <- file_write h data ;;
  set_total (t + n).

(** The module body, with the number of records as a parameter. *)
Definition generate (count : nat) : M unit :=
  h <- open_xb target ;;
  set_fp h ;;
  set_total 0 ;;
  for_range count loop_body ;;
  t <- get_total ;;
  print [str t].

Definition record_count : nat := Z.to_nat 100000.

Definition main : M unit := generate record_count.

(** ** What the script is expected to write *)

(** The record of a payload, as the format describes it:
    [digest || length_bytes || payload]. *)
Definition record_bytes (payload : bytes) : bytes :=
  hash_data payload ++ le_digits 8 (len payload) ++ payload.

(** The console line of a payload. *)
Definition record_line (payload : bytes) : string :=
  String.concat " " [hex (hash_data payload); str (len payload)].

(** ** What a turn of the loop does *)

(** What a turn draws when the random source offers [fst offer] to the
    size read and [snd offer] to the content read: the size bytes and the
    payload. *)
Definition draw_of (offer : bytes * bytes) : bytes * bytes :=
  let sz := firstn 2 (fst offer) in
  (sz, firstn (Z.to_nat (int_from_bytes_little sz)) (snd offer)).

Definition payload_of (offer : bytes * bytes) : bytes := snd (draw_of offer).

(** The effects of one complete turn through the file object [h]. *)
Definition turn_events (h : nat) (offer : bytes * bytes) : list event :=
  [ EvGetrandom 2 (Some (fst (draw_of offer)));
    EvGetrandom (int_from_bytes_little (fst (draw_of offer)))
                (Some (payload_of offer));
    EvPrint (record_line (payload_of offer));
    EvWrite h (record_bytes (payload_of offer)) None ].

(** The disk has all the room the next write may need. *)
Definition next_write_passes (w : World) : Prop :=
  forall j rest, write_faults w <> Some j :: rest.

(** The file at [path] is what the disk has of it followed by what the
    file object [h] holds in its buffer, and the buffer holds no more
    than its size. *)
Record synced (h : nat) (path : string) (w : World) : Prop := {
  sy_file : file_at w path = disk_at w path ++ buffer_of w h;
  sy_room : (length (buffer_of w h) <= buffer_size w)%nat
}.

(** A turn that ran to its end. *)
Record turn_done (i h : nat) (offer : bytes * bytes) (w w' : World) : Prop := {
  td_entropy : entropy w = Some (fst offer) :: Some (snd offer) :: entropy w';
  td_faults : write_faults w' = tail (write_faults w);
  td_synced : synced h target w -> synced h target w';
  td_size : buffer_size w' = buffer_size w;
  td_fs : fs w' = <[target := file_at w target ++ record_bytes (payload_of offer)]> (fs w);
  td_fds : fds w' = fds w;
  td_history : history w' = history w ++ turn_events h offer;
  td_fp : var_fp w' = var_fp w;
  td_total : var_total w' = (fun t => t + (38 + len (payload_of offer))) <$> var_total w;
  td_i : var_i w' = Some i;
  td_buf : var_buf w' = Some (record_bytes (payload_of offer))
}.

(** The random source has nothing for the next draw: no reply for the
    size, or none for the content. *)
Definition source_dry (w : World) : Prop :=
  forall o1 o2 rest, entropy w <> Some o1 :: Some o2 :: rest.

(** A draw cut short by the random source: at the size, or at the
    content once the size bytes were read. Nothing but the source and
    the history moved. *)
Record draw_failed (w w' : World) : Prop := {
  df_cause : source_dry w;
  df_fs : fs w' = fs w;
  df_fds : fds w' = fds w;
  df_faults : write_faults w' = write_faults w;
  df_fp : var_fp w' = var_fp w;
  df_total : var_total w' = var_total w;
  df_i : var_i w' = var_i w;
  df_buf : var_buf w' = var_buf w;
  df_disk : disk w' = disk w;
  df_buffers : buffers w' = buffers w;
  df_size : buffer_size w' = buffer_size w;
  df_history :
    history w' = history w ++ [EvGetrandom 2 None] \/
    exists sz, history w' =
      history w ++ [EvGetrandom 2 (Some sz);
                    EvGetrandom (int_from_bytes_little sz) None]
}.

(** A turn whose write failed, the disk having room for [j] bytes. The
    file object took nothing of the record, or, of a record longer than
    its buffer, the part that went to the disk directly. *)
Record write_failed (i h : nat) (offer : bytes * bytes) (j : nat) (w w' : World)
  : Prop := {
  wf_entropy : entropy w = Some (fst offer) :: Some (snd offer) :: entropy w';
  wf_cause : write_faults w = Some j :: write_faults w';
  wf_synced : synced h target w -> synced h target w';
  wf_size : buffer_size w' = buffer_size w;
  wf_fs : exists part,
      part `prefix_of` record_bytes (payload_of offer) /\
      (part <> [] ->
       (buffer_size w < length (record_bytes (payload_of offer)))%nat) /\
      fs w' = <[target := file_at w target ++ part]> (fs w);
  wf_fds : fds w' = fds w;
  wf_history :
    history w' = history w ++
      [ EvGetrandom 2 (Some (fst (draw_of offer)));
        EvGetrandom (int_from_bytes_little (fst (draw_of offer)))
                    (Some (payload_of offer));
        EvPrint (record_line (payload_of offer));
        EvWrite h (record_bytes (payload_of offer)) (Some j) ];
  wf_fp : var_fp w' = var_fp w;
  wf_total : var_total w' = var_total w;
  wf_i : var_i w' = Some i
}.

(** The world in which the loop runs: [fp] is bound to an open file
    object on the target, the target exists, and [total] is bound. *)
Record ready (h : nat) (w : World) : Prop := {
  rd_fp : var_fp w = Some h;
  rd_fds : fds w !! h = Some target;
  rd_file : is_Some (fs w !! target);
  rd_total : is_Some (var_total w)
}.

(** ** What the loop does *)

Definition payloads (offers : list (bytes * bytes)) : list bytes :=
  map payload_of offers.

(** The records of a list of payloads, one after the other. *)
Definition records (ps : list bytes) : bytes := concat (map record_bytes ps).

(** The sum over the payloads of [38 + len payload]. *)
Definition records_size (ps : list bytes) : Z :=
  fold_right (fun p acc => 38 + len p + acc) 0 ps.

(** The replies the random source gives when it makes the offers. *)
Definition offered (offers : list (bytes * bytes)) : list (option bytes) :=
  flat_map (fun o => [Some (fst o); Some (snd o)]) offers.

(** The disk has all the room the next [n] writes may need. *)
Definition writes_pass (n : nat) (w : World) : Prop :=
  Forall (fun f => f = None) (firstn n (write_faults w)).

(** The turns [start], [start + 1], ... ran to their end, one per offer. *)
Record loop_done (start h : nat) (offers : list (bytes * bytes)) (w w' : World)
  : Prop := {
  ld_entropy : entropy w = offered offers ++ entropy w';
  ld_faults : write_faults w' = skipn (length offers) (write_faults w);
  ld_synced : synced h target w -> synced h target w';
  ld_size : buffer_size w' = buffer_size w;
  ld_fs : fs w' = <[target := file_at w target ++ records (payloads offers)]> (fs w);
  ld_fds : fds w' = fds w;
  ld_history : history w' = history w ++ flat_map (turn_events h) offers;
  ld_fp : var_fp w' = var_fp w;
  ld_total : var_total w' =
             (fun t => t + records_size (payloads offers)) <$> var_total w;
  ld_i : var_i w' = match offers with
                    | [] => var_i w
                    | _ :: _ => Some (start + length offers - 1)%nat
                    end
}.

(** ** What a run of the script does *)

(** The world once the file is created, [fp] bound to it and [total]
    set to zero. *)
Definition started (w : World) : World :=
  let h := fresh (dom (fds w)) in
  with_total (Some 0)
    (with_fp (Some h)
       (log (EvOpen target (Some h))
          (with_buffers (<[h := []]> (buffers w))
             (with_disk (<[target := []]> (disk w))
                (with_fds (<[h := target]> (fds w))
                   (with_fs (<[target := []]> (fs w)) w)))))).

(** The script cut right after the [k]-th turn of the loop. *)
Definition after_turns (k : nat) : M unit :=
  h <- open_xb target ;;
  set_fp h ;;
  set_total 0 ;;
  for_range k loop_body.

(** The state reached from [w] once the file is created and one complete
    turn was made per offer. *)
Record turns_done (offers : list (bytes * bytes)) (w wk : World) : Prop := {
  sd_free : fs w !! target = None;
  sd_entropy : entropy w = offered offers ++ entropy wk;
  sd_synced : synced (fresh (dom (fds w))) target wk;
  sd_size : buffer_size wk = buffer_size w;
  sd_faults : write_faults wk = skipn (length offers) (write_faults w);
  sd_fs : fs wk = <[target := records (payloads offers)]> (fs w);
  sd_file : file_at wk target = records (payloads offers);
  sd_fds : fds wk = <[fresh (dom (fds w)) := target]> (fds w);
  sd_fp : var_fp wk = Some (fresh (dom (fds w)));
  sd_total : var_total wk = Some (records_size (payloads offers));
  sd_history :
    history wk = history w ++
      EvOpen target (Some (fresh (dom (fds w))))
      :: flat_map (turn_events (fresh (dom (fds w)))) offers;
  sd_i : var_i wk = match offers with
                    | [] => var_i w
                    | _ :: _ => Some (length offers - 1)%nat
                    end
}.

(** The last events of a run that created the file and then made one
    complete turn per offer: the line with the total, or the reads of a
    draw that failed, or a whole turn whose write failed. *)
Definition last_events (h : nat) (offers : list (bytes * bytes))
    (r : result unit) (evs : list event) : Prop :=
  match r with
  | Ok _ => evs = [EvPrint (str (records_size (payloads offers)))]
  | Raise e =>
      (e = OSError GetrandomFailed /\
       (evs = [EvGetrandom 2 None] \/
        exists sz, evs = [EvGetrandom 2 (Some sz);
                          EvGetrandom (int_from_bytes_little sz) None])) \/
      (e = OSError WriteFailed /\
       exists offer j,
         evs = [ EvGetrandom 2 (Some (fst (draw_of offer)));
                 EvGetrandom (int_from_bytes_little (fst (draw_of offer)))
                             (Some (payload_of offer));
                 EvPrint (record_line (payload_of offer));
                 EvWrite h (record_bytes (payload_of offer)) (Some j) ])
  end.

(** In a list of events, every write of a buffer comes right after the
    console line of the payload whose record the buffer is. *)
Definition lines_precede_writes (evs : list event) : Prop :=
  forall pre h data fault post,
    evs = pre ++ EvWrite h data fault :: post ->
    exists pre' p,
      pre = pre' ++ [EvPrint (record_line p)] /\ data = record_bytes p.

Definition is_write (e : event) : Prop :=
  match e with
  | EvWrite _ _ _ => True
  | _ => False
  end.

(** A file object is closed when it is no longer in the table of the
    open ones. The claim that the script closes its file on every path:
    at the end of the run, whatever [fp] is bound to is closed. *)
Definition closed_at_exit (prog : M unit) (w : World) : Prop :=
  forall h, var_fp (snd (prog w)) = Some h -> fds (snd (prog w)) !! h = None.

(** The bytes that a list of events hands to [write] calls on the file
    object [h], in order. *)
Fixpoint handed_to (h : nat) (evs : list event) : bytes :=
  match evs with
  | [] => []
  | EvWrite h' data _ :: rest =>
      if (h' =? h)%nat then data ++ handed_to h rest else handed_to h rest
  | _ :: rest => handed_to h rest
  end.

(** What the counter [total] stands for in a world [wk] that a run from
    [w] reached by writing the records of the payloads [ps] through the
    file object [h]: the records were handed to [fp.write] one after the
    other, their sizes add up to [total], and they are in the file, of
    which the disk has a part and the buffer of [h] the rest. *)
Record accounted (h : nat) (ps : list bytes) (w wk : World) : Prop := {
  ac_total : var_total wk = Some (records_size ps);
  ac_size : len (records ps) = records_size ps;
  ac_handed :
    exists evs, history wk = history w ++ evs /\ handed_to h evs = records ps;
  ac_file : file_at wk target = records ps;
  ac_disk : disk_at wk target ++ buffer_of wk h = records ps;
  ac_buffer : (length (buffer_of wk h) <= buffer_size wk)%nat;
  ac_lag :
    records_size ps - Z.of_nat (buffer_size wk)
    <= len (disk_at wk target) <= records_size ps
}.

(** The claim that the size of the output file follows the counter: in
    the world that a program leaves, the file on disk is as long as
    [total] says. *)
Definition file_size_is_total (prog : M unit) (w : World) : Prop :=
  var_total (snd (prog w)) = Some (len (disk_at (snd (prog w)) target)).

(** ** Reading a record back *)

(** The reader of one record, after the words of the format section:
    read 30 bytes of digest, read 8 bytes of little-endian length, read
    that many bytes of payload. The script has no reader, it only writes
    records. The reader returns the three fields and what follows the
    record. *)
Definition spec_parse_record (buf : bytes) : option (bytes * Z * bytes * bytes) :=
  let digest := firstn 30 buf in
  let field := firstn 8 (skipn 30 buf) in
  let n := int_from_bytes_little field in
  let body := skipn 38 buf in
  if (length buf <? 38)%nat || (len body <? n)
  then None
  else Some (digest, n, firstn (Z.to_nat n) body, skipn (Z.to_nat n) body).

(** The three fields laid out again, after the words of the format
    section: [digest || length || payload]. *)
Definition spec_serialize_record (digest : bytes) (n : Z) (payload : bytes) : bytes :=
  digest ++ le_digits 8 n ++ payload.

(** ** Worlds for the examples *)

(** [io.DEFAULT_BUFFER_SIZE] *)
Definition default_buffer_size : nat := Z.to_nat 8192.

Definition quiet_world : World :=
  mkWorld ∅ ∅ [] [] [] None None None None ∅ ∅ default_buffer_size.

(** A world for the examples: nothing on disk, and a random source that
    answers four reads: the size 3, four bytes of which three are taken,
    the size 0, and nothing. *)
Definition two_turn_world : World :=
  mkWorld ∅ ∅
    [ Some [x03; x00]; Some (bytes_of_string "abcd");
      Some [x00; x00]; Some [] ]
    [] [] None None None None ∅ ∅ default_buffer_size.

(** A world whose random source returns one byte of content where five
    were asked for. *)
Definition short_read_world : World :=
  mkWorld ∅ ∅ [ Some [x05; x00]; Some [x61] ] [] [] None None None None
    ∅ ∅ default_buffer_size.

(** A world in which the target already holds three bytes. *)
Definition occupied_world : World :=
  mkWorld {[ target := bytes_of_string "old" ]} ∅
    [ Some [x03; x00]; Some (bytes_of_string "abcd") ]
    [] [] None None None None
    {[ target := bytes_of_string "old" ]} ∅ default_buffer_size.

(** A world whose random source answers the reads of one turn and the
    size read of the next, and then nothing. *)
Definition drying_world : World :=
  mkWorld ∅ ∅
    [ Some [x01; x00]; Some (bytes_of_string "a"); Some [x05; x00] ]
    [] [] None None None None ∅ ∅ default_buffer_size.

(** A world of small buffers in which the disk has room for ten bytes
    during the second write: the record of the first turn, 41 bytes, is
    still in the buffer of 64 bytes when the second write has to flush
    it to make room for its 38 bytes. *)
Definition faulty_world : World :=
  mkWorld ∅ ∅
    [ Some [x03; x00]; Some (bytes_of_string "abcd");
      Some [x00; x00]; Some [] ]
    [ None; Some 10%nat ] [] None None None None ∅ ∅ 64.

(** A world whose disk takes 51 bytes of the file and no more, under
    file objects with buffers of 4096 bytes: whenever a call of [write]
    comes to the disk, the room is 51 bytes less what the disk has. The
    random source has a payload of three bytes and then 400 empty
    ones. *)
Definition limited_world : World :=
  mkWorld ∅ ∅
    ([ Some [x03; x00]; Some (bytes_of_string "abc") ]
     ++ concat (repeat [ Some [x00; x00]; Some [] ] 400))
    (repeat (Some 51%nat) 401) [] None None None None ∅ ∅ (Z.to_nat 4096).

(** The scenario of the specification: three records with payloads of
    0, 5 and 65535 bytes give a file of 38 + 43 + 65573 = 65654 bytes
    whose first record has an empty payload and the digest of the empty
    byte string. *)
Definition scenario_world : World :=
  mkWorld ∅ ∅
    [ Some [x00; x00]; Some [];
      Some [x05; x00]; Some (bytes_of_string "hello");
      Some [xff; xff]; Some (repeat x2a (Z.to_nat 65535)) ]
    [] [] None None None None ∅ ∅ default_buffer_size.

(** * Properties *)

(** ** Bytes and little-endian integers *)

Lemma byte_val_range (b : byte) : 0 <= byte_val b < 256.
Proof.
  unfold byte_val. pose proof (Byte.to_N_bounded b). lia.
Qed.

Lemma byte_val_of (z : Z) : byte_val (byte_of z) = z mod 256.
Proof.
  unfold byte_val, byte_of.
  assert (Hr : 0 <= z mod 256 < 256) by (apply Z.mod_pos_bound; lia).
  destruct (Byte.of_N (Z.to_N (z mod 256))) as [b|] eqn:E.
  - apply Byte.to_of_N in E. rewrite E. lia.
  - apply Byte.of_N_None_iff in E. lia.
Qed.

Lemma byte_of_val (b : byte) : byte_of (byte_val b) = b.
Proof.
  unfold byte_of. pose proof (byte_val_range b) as Hr.
  rewrite Z.mod_small by lia. unfold byte_val.
  rewrite N2Z.id, Byte.of_to_N. reflexivity.
Qed.

Lemma byte_of_mod (z : Z) : byte_of (z mod 256) = byte_of z.
Proof.
  unfold byte_of. rewrite Z.mod_mod by lia. reflexivity.
Qed.

Lemma length_le_digits (k : nat) (n : Z) : length (le_digits k n) = k.
Proof.
  revert n. induction k as [|k IH]; intros n; simpl; [reflexivity|].
  now rewrite IH.
Qed.

Lemma int_from_bytes_little_range (b : bytes) :
  0 <= int_from_bytes_little b < 256 ^ Z.of_nat (length b).
Proof.
  induction b as [|x rest IH].
  - simpl. lia.
  - cbn [int_from_bytes_little length].
    rewrite Nat2Z.inj_succ, Z.pow_succ_r by lia.
    pose proof (byte_val_range x). lia.
Qed.

(** Decoding what [le_digits] wrote gives the number back, reduced to
    the width. *)
Lemma int_from_le_digits (k : nat) (n : Z) :
  int_from_bytes_little (le_digits k n) = n mod 256 ^ Z.of_nat k.
Proof.
  revert n. induction k as [|k IH]; intros n.
  - simpl. now rewrite Z.mod_1_r.
  - cbn [le_digits int_from_bytes_little].
    rewrite byte_val_of, IH, Nat2Z.inj_succ, Z.pow_succ_r by lia.
    rewrite Z.rem_mul_r by lia. reflexivity.
Qed.

Lemma le_digits_of_int (b : bytes) :
  le_digits (length b) (int_from_bytes_little b) = b.
Proof.
  induction b as [|x rest IH]; [reflexivity|].
  cbn [length le_digits int_from_bytes_little].
  pose proof (byte_val_range x) as Hx.
  set (r := int_from_bytes_little rest) in *.
  assert (Hm : (byte_val x + 256 * r) mod 256 = byte_val x).
  { replace (byte_val x + 256 * r) with (byte_val x + r * 256) by lia.
    rewrite Z.mod_add by lia. apply Z.mod_small. lia. }
  assert (Hd : (byte_val x + 256 * r) / 256 = r).
  { replace (byte_val x + 256 * r) with (byte_val x + r * 256) by lia.
    rewrite Z.div_add by lia. rewrite Z.div_small by lia. lia. }
  f_equal.
  - rewrite <- byte_of_mod, Hm. apply byte_of_val.
  - rewrite Hd. exact IH.
Qed.

Lemma len_nonneg (b : bytes) : 0 <= len b.
Proof. unfold len. lia. Qed.

Lemma len_app (a b : bytes) : len (a ++ b) = len a + len b.
Proof. unfold len. rewrite length_app. lia. Qed.

Lemma to_bytes_little_fits (n : Z) (k : nat) :
  0 <= n < 256 ^ Z.of_nat k -> to_bytes_little n k = Ok (le_digits k n).
Proof.
  intros [H0 H1]. unfold to_bytes_little.
  apply Z.leb_le in H0. apply Z.ltb_lt in H1. now rewrite H0, H1.
Qed.

Lemma to_bytes_little_overflow (n : Z) (k : nat) :
  256 ^ Z.of_nat k <= n -> to_bytes_little n k = Raise OverflowError.
Proof.
  intros H. unfold to_bytes_little.
  apply Z.ltb_ge in H. rewrite H. now rewrite andb_false_r.
Qed.

(** ** The digest has the width asked for *)

Module Blake2bFacts.
Import Blake2b.

Lemma length_compress h block t last : length (compress h block t last) = 8%nat.
Proof. unfold compress. now rewrite length_map, length_seq. Qed.

Lemma length_init nn : length (init nn) = 8%nat.
Proof. unfold init. now rewrite length_insert. Qed.

Lemma length_absorb bs : forall h t,
  length h = 8%nat -> length (absorb h t bs) = 8%nat.
Proof.
  induction bs as [|b rest IH]; intros h t Hh; [exact Hh|].
  destruct rest as [|b' rest'].
  - apply length_compress.
  - change (absorb h t (b :: b' :: rest'))
      with (absorb (compress h b (t + 128) false) (t + 128) (b' :: rest')).
    apply IH, length_compress.
Qed.

Lemma length_words_bytes (ws : list Z) :
  length (concat (map (le_digits 8) ws)) = (8 * length ws)%nat.
Proof.
  induction ws as [|x rest IH]; [reflexivity|].
  cbn [map concat length]. rewrite length_app, length_le_digits, IH. lia.
Qed.

Lemma length_digest data nn :
  (nn <= 64)%nat -> length (digest data nn) = nn.
Proof.
  intros Hnn. unfold digest.
  rewrite length_firstn, length_words_bytes, length_absorb by apply length_init.
  lia.
Qed.

(** The cutting into blocks loses no byte and keeps the order. *)
Lemma concat_blocks_from data : forall cur,
  concat (blocks_from cur data) = cur ++ data.
Proof.
  induction data as [|x rest IH]; intros cur; cbn [blocks_from].
  - cbn [concat]. reflexivity.
  - destruct (length cur =? 128)%nat.
    + cbn [concat]. rewrite IH. reflexivity.
    + rewrite IH, <- app_assoc. reflexivity.
Qed.

End Blake2bFacts.

Lemma length_hash_data (data : bytes) : length (hash_data data) = 30%nat.
Proof. unfold hash_data. apply Blake2bFacts.length_digest. lia. Qed.

(** The model of the hash against [hashlib.blake2b(..., digest_size=30)]
    and against the BLAKE2b-512 vector of RFC 7693, appendix A. *)
Example hash_data_empty :
  hex (hash_data []) =
  "a5d6d5975d09c76462b3f9c74f9568d9f9fd46dfbdcbf3f14bc835298b22"%string.
Proof. vm_compute. reflexivity. Qed.

Example hash_data_abc :
  hex (hash_data (bytes_of_string "abc")) =
  "d444e9710d074b9a54a430e9034b4ed30ecf5a5e6f9ace9c314b0434004b"%string.
Proof. vm_compute. reflexivity. Qed.

Example hash_data_two_blocks :
  hex (hash_data (map (fun i => byte_of (Z.of_nat i)) (seq 0 129))) =
  "eb364d69803cf14010d2887e06e6e60c88c46392298ffae17fc7aa3d7744"%string.
Proof. vm_compute. reflexivity. Qed.

(** Two full blocks: the last block is full and is the final one. *)
Example hash_data_full_last_block :
  hex (hash_data (map (fun i => byte_of (Z.of_nat i)) (seq 0 256))) =
  "d8222e309b9d1f2bb9c8522a2569410a0e5527d0500a7cb30742cc5a1b12"%string.
Proof. vm_compute. reflexivity. Qed.

Example blake2b_512_abc :
  hex (Blake2b.digest (bytes_of_string "abc") 64) =
  ("ba80a53f981c4d0d6a2797b69f12f6e94c212f14685ac4b74b12bb6fdbffa2d1" ++
   "7d87c5392aab792dc252d5de4533cc9518d38aa8dbf1925ab92386edd4009923")%string.
Proof. vm_compute. reflexivity. Qed.

(** ** One turn of the loop *)

Ltac world_simpl :=
  cbn [fs fds entropy write_faults history var_fp var_total var_i var_buf
       disk buffers buffer_size
       with_fs with_fds with_entropy with_write_faults log
       with_fp with_total with_i with_buf with_disk with_buffers] in *.

Lemma encode_entry_run (p : bytes) (w : World) :
  len p < 2 ^ 64 ->
  encode_entry p w = (Ok (record_bytes p), log (EvPrint (record_line p)) w).
Proof.
  intros Hfit. unfold encode_entry, bind, lift, print, ret.
  rewrite to_bytes_little_fits.
  - unfold record_bytes, record_line. cbn [concat].
    now rewrite app_nil_r.
  - split; [apply len_nonneg|]. exact Hfit.
Qed.

(** What [random_size] can return. *)
Lemma size_bound (offered : bytes) :
  0 <= int_from_bytes_little (firstn 2 offered) <= 65535.
Proof.
  pose proof (int_from_bytes_little_range (firstn 2 offered)) as [H0 H1].
  split; [exact H0|].
  assert (Hl : (length (firstn 2 offered) <= 2)%nat)
    by (rewrite length_firstn; lia).
  assert (256 ^ Z.of_nat (length (firstn 2 offered)) <= 256 ^ 2)
    by (apply Z.pow_le_mono_r; lia).
  lia.
Qed.

Lemma len_firstn_le (n : Z) (b : bytes) :
  0 <= n -> len (firstn (Z.to_nat n) b) <= n.
Proof. intros Hn. unfold len. rewrite length_firstn. lia. Qed.

Lemma len_record_bytes (p : bytes) : len (record_bytes p) = 38 + len p.
Proof.
  unfold record_bytes. rewrite !len_app. unfold len at 1 2.
  rewrite length_hash_data, length_le_digits. lia.
Qed.

(** Every payload the random source can yield is at most 65535 bytes
    long, whatever the source offers. *)
Lemma payload_bound (offer : bytes * bytes) :
  (length (fst (draw_of offer)) <= 2)%nat /\
  (0 <= len (payload_of offer) <= int_from_bytes_little (fst (draw_of offer))) /\
  (int_from_bytes_little (fst (draw_of offer)) <= 65535).
Proof.
  unfold payload_of, draw_of. cbn [fst snd].
  pose proof (size_bound (fst offer)) as [H0 H1].
  split; [rewrite length_firstn; lia|].
  split; [|exact H1].
  split; [apply len_nonneg | now apply len_firstn_le].
Qed.

Lemma payload_fits (offer : bytes * bytes) : len (payload_of offer) < 2 ^ 64.
Proof. pose proof (payload_bound offer). lia. Qed.

Ltac history_assoc := rewrite <- ?app_assoc; reflexivity.

(** *** Stepping through a computation *)

Lemma bind_inv {A B} (m : M A) (k : A -> M B) (w : World) (r : result B) (w' : World) :
  bind m k w = (r, w') ->
  (exists a w1, m w = (Ok a, w1) /\ k a w1 = (r, w')) \/
  (exists e, m w = (Raise e, w') /\ r = Raise e).
Proof.
  unfold bind. destruct (m w) as [[a|e] w1]; intros H.
  - left. exists a, w1. split; [reflexivity | exact H].
  - right. injection H as <- <-. exists e. split; reflexivity.
Qed.

Lemma bind_ok {A B} (m : M A) (k : A -> M B) (w w1 : World) (a : A) :
  m w = (Ok a, w1) -> bind m k w = k a w1.
Proof. intros H. unfold bind. now rewrite H. Qed.

Lemma bind_raise {A B} (m : M A) (k : A -> M B) (w w1 : World) (e : exn) :
  m w = (Raise e, w1) -> bind m k w = (Raise e, w1).
Proof. intros H. unfold bind. now rewrite H. Qed.

Ltac bind_inv H :=
  let a := fresh "a" in
  let w1 := fresh "w" in
  let e := fresh "e" in
  let H1 := fresh "Hstep" in
  apply bind_inv in H;
  destruct H as [(a & w1 & H1 & H) | (e & H1 & H)].

Lemma lookup_name_inv {A} (name : string) (var : World -> option A)
    (w : World) (r : result A) (w' : World) :
  lookup_name name var w = (r, w') ->
  w' = w /\
  match var w with
  | Some v => r = Ok v
  | None => r = Raise (NameError name)
  end.
Proof.
  unfold lookup_name. destruct (var w); intros [= <- <-]; split; reflexivity.
Qed.

Lemma with_entropy_same (w : World) : with_entropy (entropy w) w = w.
Proof. now destruct w. Qed.

Lemma getrandom_inv (size : Z) (w : World) (r : result bytes) (w' : World) :
  0 <= size ->
  getrandom size w = (r, w') ->
  match r with
  | Ok got =>
      exists offered rest,
        entropy w = Some offered :: rest /\
        got = firstn (Z.to_nat size) offered /\
        w' = log (EvGetrandom size (Some got)) (with_entropy rest w)
  | Raise e =>
      e = OSError GetrandomFailed /\
      (forall offered rest, entropy w <> Some offered :: rest) /\
      w' = log (EvGetrandom size None) (with_entropy (tail (entropy w)) w)
  end.
Proof.
  intros Hsize. unfold getrandom.
  rewrite (proj2 (Z.ltb_ge size 0) Hsize).
  destruct (entropy w) as [|[offered|] rest] eqn:E; intros [= <- <-].
  - split; [reflexivity|]. split; [discriminate|].
    cbn [tail]. now rewrite <- E, with_entropy_same.
  - exists offered, rest. split; [reflexivity | split; reflexivity].
  - split; [reflexivity|]. split; [discriminate | reflexivity].
Qed.

Lemma random_data_inv (w : World) (r : result bytes) (w' : World) :
  random_data w = (r, w') ->
  match r with
  | Ok d =>
      exists o1 o2 rest,
        entropy w = Some o1 :: Some o2 :: rest /\
        d = payload_of (o1, o2) /\
        w' = log (EvGetrandom (int_from_bytes_little (firstn 2 o1)) (Some d))
               (with_entropy rest
                  (log (EvGetrandom 2 (Some (firstn 2 o1)))
                     (with_entropy (Some o2 :: rest) w)))
  | Raise e => e = OSError GetrandomFailed /\ draw_failed w w'
  end.
Proof.
  unfold random_data, random_size. intros H.
  bind_inv H.
  - bind_inv Hstep; [|discriminate].
    unfold ret in Hstep. injection Hstep as <- <-.
    apply getrandom_inv in Hstep0; [|lia].
    destruct Hstep0 as (o1 & ent1 & E1 & -> & ->).
    change (Z.to_nat 2) with 2%nat in *.
    apply getrandom_inv in H; [|apply size_bound].
    destruct r as [d|e].
    + destruct H as (o2 & rest & E2 & -> & ->). world_simpl. subst ent1.
      exists o1, o2, rest. split; [exact E1 | split; reflexivity].
    + destruct H as (-> & Hdry & ->). world_simpl.
      split; [reflexivity|].
      split; world_simpl; try reflexivity.
      * intros p1 p2 rest E. rewrite E1 in E. injection E as _ E.
        now apply Hdry in E.
      * right. exists (firstn 2 o1). history_assoc.
  - subst r. bind_inv Hstep.
    + unfold ret in Hstep. discriminate.
    + injection Hstep as <-.
      apply getrandom_inv in Hstep0; [|lia].
      destruct Hstep0 as (-> & Hdry & ->). split; [reflexivity|].
      split; world_simpl; try reflexivity.
      * intros p1 p2 rest E. now apply Hdry in E.
      * now left.
Qed.

Lemma random_entry_inv (w : World) (r : result bytes) (w' : World) :
  random_entry w = (r, w') ->
  match r with
  | Ok b =>
      exists o1 o2 rest,
        let sz := firstn 2 o1 in
        let d := payload_of (o1, o2) in
        entropy w = Some o1 :: Some o2 :: rest /\
        b = record_bytes d /\
        w' = log (EvPrint (record_line d))
               (log (EvGetrandom (int_from_bytes_little sz) (Some d))
                  (with_entropy rest
                     (log (EvGetrandom 2 (Some sz))
                        (with_entropy (Some o2 :: rest) w))))
  | Raise e => e = OSError GetrandomFailed /\ draw_failed w w'
  end.
Proof.
  unfold random_entry. intros H. bind_inv H.
  - apply random_data_inv in Hstep.
    destruct Hstep as (o1 & o2 & rest & E & -> & ->).
    rewrite encode_entry_run in H by apply payload_fits.
    injection H as <- <-. exists o1, o2, rest.
    split; [exact E | split; reflexivity].
  - subst r. now apply random_data_inv in Hstep.
Qed.

(** *** The buffered writer *)

(** What a call takes of its data: all of it when the call passes, and
    when it raises, nothing, or the part of data longer than the buffer
    that went to the disk directly. Only a disk short of room makes a
    call raise. *)
Lemma buffered_write_taken (size : nat) (room : option nat) (buffered data : bytes) :
  let out := buffered_write size room buffered data in
  taken out `prefix_of` data /\
  (passed out = true -> taken out = data) /\
  (passed out = false ->
   (exists j, room = Some j) /\
   (taken out <> [] -> (size < length data)%nat)).
Proof.
  unfold buffered_write.
  destruct (length data <=? size - length buffered)%nat eqn:Hfits;
    cbn [passed taken].
  { split; [reflexivity|]. split; [reflexivity | discriminate]. }
  destruct (disk_takes room (length buffered) <? length buffered)%nat eqn:Hflush;
    cbn [passed taken].
  { split; [apply prefix_nil|]. split; [discriminate|]. intros _. split.
    - destruct room as [j|]; [eauto|]. cbn [disk_takes] in Hflush.
      apply Nat.ltb_lt in Hflush. lia.
    - intros H. now destruct H. }
  destruct (length data <=? size)%nat eqn:Hsmall; cbn [passed taken].
  { split; [reflexivity|]. split; [reflexivity | discriminate]. }
  apply Nat.leb_gt in Hsmall.
  match goal with
  | |- context [(size <? ?n)%nat] => destruct (size <? n)%nat eqn:Hdirect
  end; cbn [passed taken].
  - split; [eexists; symmetry; apply firstn_skipn|].
    split; [discriminate|]. intros _. split; [|intros _; exact Hsmall].
    destruct room as [j|]; [eauto|].
    cbn [fmap option_fmap option_map disk_takes] in Hdirect.
    apply Nat.ltb_lt in Hdirect. lia.
  - split; [reflexivity|]. split; [reflexivity | discriminate].
Qed.

(** The writer on a buffer of 64 bytes. Data that fit in what is left
    of the buffer reach no disk, whatever its room; data that do not
    fit flush the buffer first; a disk that takes 10 of the 41 bytes to
    flush makes the call raise with 31 bytes left in the buffer; data
    longer than the buffer go to the disk, and when the disk takes only
    a part of them the call still passes if the rest fits the buffer. *)
Example buffered_write_cases :
  (let a := repeat x61 in
   let b := repeat x62 in
   buffered_write 64 (Some 0) (a 41) (b 23)
     = mkWritten true [] (a 41 ++ b 23) (b 23) /\
   buffered_write 64 None (a 41) (b 38)
     = mkWritten true (a 41) (b 38) (b 38) /\
   buffered_write 64 (Some 10) (a 41) (b 38)
     = mkWritten false (a 10) (a 31) [] /\
   buffered_write 64 None (a 10) (b 100)
     = mkWritten true (a 10 ++ b 100) [] (b 100) /\
   buffered_write 64 (Some 50) (a 10) (b 100)
     = mkWritten true (a 10 ++ b 40) (b 60) (b 100) /\
   buffered_write 64 (Some 10) (a 10) (b 100)
     = mkWritten false (a 10) [] [] /\
   buffered_write 64 (Some 30) (a 10) (b 100)
     = mkWritten false (a 10 ++ b 20) [] (b 20))%nat.
Proof. vm_compute. repeat split. Qed.

(** The bytes are in order and none is lost: what was in the buffer
    followed by what the call took is what the call sent to the disk
    followed by what it left in the buffer, which does not overflow. *)
Lemma buffered_write_keeps (size : nat) (room : option nat) (buffered data : bytes) :
  (length buffered <= size)%nat ->
  let out := buffered_write size room buffered data in
  buffered ++ taken out = to_disk out ++ kept out /\
  (length (kept out) <= size)%nat.
Proof.
  intros Hroom. unfold buffered_write.
  destruct (length data <=? size - length buffered)%nat eqn:Hfits;
    cbn [to_disk kept taken].
  { apply Nat.leb_le in Hfits. split; [reflexivity|].
    rewrite length_app. lia. }
  destruct (disk_takes room (length buffered) <? length buffered)%nat eqn:Hflush;
    cbn [to_disk kept taken].
  { rewrite app_nil_r, firstn_skipn. split; [reflexivity|].
    rewrite length_skipn. lia. }
  destruct (length data <=? size)%nat eqn:Hsmall; cbn [to_disk kept taken].
  { apply Nat.leb_le in Hsmall. split; [reflexivity | exact Hsmall]. }
  match goal with
  | |- context [(size <? ?n)%nat] => destruct (size <? n)%nat eqn:Hdirect
  end; cbn [to_disk kept taken].
  - rewrite app_nil_r. split; [reflexivity | cbn [length]; lia].
  - apply Nat.ltb_ge in Hdirect. rewrite <- app_assoc, firstn_skipn.
    split; [reflexivity|]. rewrite length_skipn. exact Hdirect.
Qed.

Lemma synced_ext (h : nat) (path : string) (w w' : World) :
  fs w' = fs w -> disk w' = disk w -> buffers w' = buffers w ->
  buffer_size w' = buffer_size w ->
  synced h path w -> synced h path w'.
Proof.
  intros Hfs Hdisk Hbuf Hsize [Hfile Hroom].
  split; unfold file_at, disk_at, buffer_of in *.
  - now rewrite Hfs, Hdisk, Hbuf.
  - now rewrite Hbuf, Hsize.
Qed.

(** What one call of [fp.write] through the file object [h] on the
    target does to the world. *)
Lemma file_write_inv (h : nat) (data : bytes) (w : World) (r : result Z) (w' : World) :
  fds w !! h = Some target ->
  file_write h data w = (r, w') ->
  exists part fault,
    fs w' = <[target := file_at w target ++ part]> (fs w) /\
    fds w' = fds w /\
    entropy w' = entropy w /\
    write_faults w' = tail (write_faults w) /\
    history w' = history w ++ [EvWrite h data fault] /\
    var_fp w' = var_fp w /\
    var_total w' = var_total w /\
    var_i w' = var_i w /\
    var_buf w' = var_buf w /\
    buffer_size w' = buffer_size w /\
    (synced h target w -> synced h target w') /\
    match r with
    | Ok n => n = len data /\ part = data /\ fault = None
    | Raise e =>
        e = OSError WriteFailed /\
        part `prefix_of` data /\
        (part <> [] -> (buffer_size w < length data)%nat) /\
        exists j, fault = Some j /\ write_faults w = Some j :: write_faults w'
    end.
Proof.
  intros Hfds. unfold file_write. rewrite Hfds.
  set (room := default None (head (write_faults w))).
  set (out := buffered_write (buffer_size w) room (default [] (buffers w !! h)) data).
  pose proof (buffered_write_taken (buffer_size w) room
                (default [] (buffers w !! h)) data) as (Hprefix & Hall & Hfail).
  fold out in Hprefix, Hall, Hfail.
  assert (Hsync : forall fault,
    synced h target w ->
    synced h target
      (log (EvWrite h data fault)
         (with_write_faults (tail (write_faults w))
            (with_buffers (<[h := kept out]> (buffers w))
               (with_disk
                  (<[target := default [] (disk w !! target) ++ to_disk out]> (disk w))
                  (with_fs
                     (<[target := default [] (fs w !! target) ++ taken out]> (fs w))
                     w)))))).
  { intros fault [Hfile Hroom].
    pose proof (buffered_write_keeps (buffer_size w) room
                  (default [] (buffers w !! h)) data Hroom) as [Hkeep Hkept].
    fold out in Hkeep, Hkept.
    split; unfold file_at, disk_at, buffer_of in *; world_simpl;
      rewrite ?lookup_insert_eq; cbn [default] in *; unfold id in *.
    - rewrite Hfile, <- !app_assoc. f_equal. exact Hkeep.
    - exact Hkept. }
  destruct (passed out) eqn:Hpassed; intros [= <- <-].
  - exists (taken out), None. unfold file_at. world_simpl.
    repeat (split; [reflexivity|]).
    split; [apply Hsync|].
    split; [reflexivity|]. split; [now apply Hall | reflexivity].
  - destruct (Hfail eq_refl) as [[j Hj] Hpart].
    exists (taken out), room. unfold file_at. world_simpl.
    repeat (split; [reflexivity|]).
    split; [apply Hsync|].
    split; [reflexivity|]. split; [exact Hprefix|]. split; [exact Hpart|].
    exists j. split; [exact Hj|].
    subst room. destruct (write_faults w) as [|f faults]; cbn in Hj; [discriminate|].
    cbn [tail]. now rewrite Hj.
Qed.

Lemma loop_body_inv (i h : nat) (w : World) (r : result unit) (w' : World) :
  ready h w ->
  loop_body i w = (r, w') ->
  match r with
  | Ok _ => exists offer, turn_done i h offer w w'
  | Raise e =>
      (e = OSError GetrandomFailed /\ draw_failed (with_i (Some i) w) w') \/
      (e = OSError WriteFailed /\ exists offer j, write_failed i h offer j w w')
  end.
Proof.
  intros [Hfp Hfds _ [t Ht]]. unfold loop_body, get_total, get_fp, get_buf.
  intros H.
  bind_inv H; [|discriminate].
  unfold set_i in Hstep. injection Hstep as <- <-.
  bind_inv H.
  2: { subst r. apply random_entry_inv in Hstep. left. exact Hstep. }
  apply random_entry_inv in Hstep.
  destruct Hstep as (o1 & o2 & rest & Hent & -> & ->). world_simpl.
  set (d := payload_of (o1, o2)) in *.
  bind_inv H; [|discriminate].
  unfold set_buf in Hstep. injection Hstep as <- <-.
  bind_inv H; apply lookup_name_inv in Hstep; destruct Hstep as [-> Hv];
    cbn [var_total with_buf log with_entropy with_i] in Hv;
    rewrite Ht in Hv; [|discriminate].
  injection Hv as ->.
  bind_inv H; apply lookup_name_inv in Hstep; destruct Hstep as [-> Hv];
    cbn [var_fp with_buf log with_entropy with_i] in Hv;
    rewrite Hfp in Hv; [|discriminate].
  injection Hv as ->.
  bind_inv H; apply lookup_name_inv in Hstep; destruct Hstep as [-> Hv];
    cbn [var_buf with_buf] in Hv; [|discriminate].
  injection Hv as ->.
  assert (Hsync0 : forall w0,
    w0 = with_buf (Some (record_bytes d))
           (log (EvPrint (record_line d))
              (log (EvGetrandom (int_from_bytes_little (firstn 2 o1)) (Some d))
                 (with_entropy rest
                    (log (EvGetrandom 2 (Some (firstn 2 o1)))
                       (with_entropy (Some o2 :: rest) (with_i (Some i) w)))))) ->
    synced h target w -> synced h target w0).
  { intros w0 ->. apply synced_ext; reflexivity. }
  specialize (Hsync0 _ eq_refl).
  bind_inv H.
  - apply file_write_inv in Hstep; [|exact Hfds].
    destruct Hstep as (part & fault & Wfs & Wfds & Went & Wfaults & Whist & Wfp
                       & Wtotal & Wi & Wbuf & Wsize & Wsync & -> & -> & ->).
    unfold set_total in H. injection H as <- <-.
    exists (o1, o2). unfold file_at in Wfs. world_simpl.
    split; unfold file_at; world_simpl; cbn [fst snd].
    + now rewrite Went.
    + exact Wfaults.
    + intros Hs. refine (synced_ext h target _ _ _ _ _ _ (Wsync (Hsync0 Hs)));
        reflexivity.
    + exact Wsize.
    + exact Wfs.
    + exact Wfds.
    + rewrite Whist. history_assoc.
    + exact Wfp.
    + rewrite Ht, len_record_bytes. reflexivity.
    + exact Wi.
    + exact Wbuf.
  - subst r. apply file_write_inv in Hstep; [|exact Hfds].
    destruct Hstep as (part & fault & Wfs & Wfds & Went & Wfaults & Whist & Wfp
                       & Wtotal & Wi & Wbuf & Wsize & Wsync & -> & Hprefix & Hpart
                       & j & -> & Hj).
    right. split; [reflexivity|]. exists (o1, o2), j.
    unfold file_at in Wfs. world_simpl.
    split; unfold file_at; world_simpl; cbn [fst snd].
    + now rewrite Went.
    + exact Hj.
    + auto.
    + exact Wsize.
    + exists part. split; [exact Hprefix|]. split; [exact Hpart | exact Wfs].
    + exact Wfds.
    + rewrite Whist. history_assoc.
    + exact Wfp.
    + now rewrite Wtotal.
    + exact Wi.
Qed.

(** ** The loop *)

Lemma len_records (ps : list bytes) : len (records ps) = records_size ps.
Proof.
  induction ps as [|p rest IH]; [reflexivity|].
  unfold records in *. cbn [map concat records_size fold_right].
  rewrite len_app, len_record_bytes, IH. reflexivity.
Qed.

Lemma records_size_cons (p : bytes) (ps : list bytes) :
  records_size (p :: ps) = 38 + len p + records_size ps.
Proof. reflexivity. Qed.

Lemma file_at_lookup (w : World) (path : string) :
  is_Some (fs w !! path) -> fs w !! path = Some (file_at w path).
Proof. intros [c Hc]. unfold file_at. now rewrite Hc. Qed.

Lemma turn_done_ready (i h : nat) (offer : bytes * bytes) (w w' : World) :
  ready h w -> turn_done i h offer w w' -> ready h w'.
Proof.
  intros [Hfp Hfds Hfile [t Ht]] Hturn. split.
  - now rewrite (td_fp _ _ _ _ _ Hturn).
  - now rewrite (td_fds _ _ _ _ _ Hturn).
  - rewrite (td_fs _ _ _ _ _ Hturn), lookup_insert_eq. eauto.
  - rewrite (td_total _ _ _ _ _ Hturn), Ht. cbn. eauto.
Qed.

Lemma loop_done_nil (start h : nat) (w : World) :
  ready h w -> loop_done start h [] w w.
Proof.
  intros [Hfp Hfds Hfile [t Ht]].
  split; cbn [offered flat_map payloads map records concat length skipn app];
    try reflexivity.
  - auto.
  - rewrite app_nil_r. symmetry. apply insert_id. now apply file_at_lookup.
  - now rewrite app_nil_r.
  - rewrite Ht. cbn. f_equal. lia.
Qed.

Lemma loop_done_cons (start h : nat) (offer : bytes * bytes)
    (offers : list (bytes * bytes)) (w w1 w' : World) :
  turn_done start h offer w w1 ->
  loop_done (S start) h offers w1 w' ->
  loop_done start h (offer :: offers) w w'.
Proof.
  intros Hturn Hloop.
  destruct Hturn as [Tent Tfaults Tsync Tsize Tfs Tfds Thist Tfp Ttotal Ti Tbuf].
  destruct Hloop as [Lent Lfaults Lsync Lsize Lfs Lfds Lhist Lfp Ltotal Li].
  split.
  - rewrite Tent, Lent. reflexivity.
  - rewrite Lfaults, Tfaults. cbn [length].
    destruct (write_faults w); [now rewrite !skipn_nil | reflexivity].
  - auto.
  - now rewrite Lsize.
  - rewrite Lfs. unfold file_at at 1. rewrite Tfs, lookup_insert_eq.
    cbn [default]. rewrite insert_insert_eq.
    unfold payloads, records, id. cbn [map concat].
    now rewrite <- app_assoc.
  - now rewrite Lfds, Tfds.
  - rewrite Lhist, Thist. cbn [flat_map]. now rewrite <- app_assoc.
  - now rewrite Lfp, Tfp.
  - rewrite Ltotal, Ttotal. destruct (var_total w) as [t|]; [|reflexivity].
    cbn [fmap option_fmap option_map]. f_equal.
    unfold payloads. cbn [map]. rewrite records_size_cons. lia.
  - rewrite Li. destruct offers as [|o os]; cbn [length].
    + rewrite Ti. f_equal. lia.
    + f_equal. lia.
Qed.

Lemma loop_done_ready (start h : nat) (offers : list (bytes * bytes))
    (w w' : World) :
  ready h w -> loop_done start h offers w w' -> ready h w'.
Proof.
  intros [Hfp Hfds Hfile [t Ht]] Hloop. split.
  - now rewrite (ld_fp _ _ _ _ _ Hloop).
  - now rewrite (ld_fds _ _ _ _ _ Hloop).
  - rewrite (ld_fs _ _ _ _ _ Hloop), lookup_insert_eq. eauto.
  - rewrite (ld_total _ _ _ _ _ Hloop), Ht. cbn. eauto.
Qed.

(** A loop that ends normally made one complete turn per count. *)
Lemma for_from_ok_inv (h : nat) (n : nat) : forall (start : nat) (w w' : World),
  ready h w ->
  for_from start n loop_body w = (Ok tt, w') ->
  exists offers, length offers = n /\ loop_done start h offers w w'.
Proof.
  induction n as [|n IH]; intros start w w' Hready Hrun.
  - cbn [for_from] in Hrun. unfold ret in Hrun. injection Hrun as <-.
    exists []. split; [reflexivity | now apply loop_done_nil].
  - cbn [for_from] in Hrun. bind_inv Hrun; [|discriminate].
    destruct a. pose proof (loop_body_inv _ _ _ _ _ Hready Hstep) as [offer Hturn].
    pose proof (turn_done_ready _ _ _ _ _ Hready Hturn) as Hready1.
    destruct (IH _ _ _ Hready1 Hrun) as (offers & Hlen & Hloop).
    exists (offer :: offers). split; [cbn [length]; now rewrite Hlen|].
    now apply loop_done_cons with w0.
Qed.

(** A loop that raises made some complete turns, fewer than the count,
    and then a turn that raised. *)
Lemma for_from_raise_inv (body : nat -> M unit) (n : nat) :
  forall (start : nat) (w w' : World) (e : exn),
  for_from start n body w = (Raise e, w') ->
  exists k wk,
    (k < n)%nat /\
    for_from start k body w = (Ok tt, wk) /\
    body (start + k)%nat wk = (Raise e, w').
Proof.
  induction n as [|n IH]; intros start w w' e Hrun.
  - cbn [for_from] in Hrun. discriminate.
  - cbn [for_from] in Hrun. bind_inv Hrun.
    + destruct a. destruct (IH _ _ _ _ Hrun) as (k & wk & Hk & Hpre & Hlast).
      exists (S k), wk. split; [lia|]. split.
      * cbn [for_from]. now rewrite (bind_ok _ _ _ _ _ Hstep).
      * now replace (start + S k)%nat with (S start + k)%nat by lia.
    + injection Hrun as <-. exists 0%nat, w. split; [lia|]. split.
      * reflexivity.
      * now rewrite Nat.add_0_r.
Qed.

(** With the turns cut after [k], the worlds in between. *)
Lemma for_from_ok_turns (h : nat) (n : nat) : forall (start : nat) (w w' : World),
  ready h w ->
  for_from start n loop_body w = (Ok tt, w') ->
  exists offers,
    length offers = n /\
    loop_done start h offers w w' /\
    forall k, (k <= n)%nat ->
      exists wk,
        for_from start k loop_body w = (Ok tt, wk) /\
        loop_done start h (firstn k offers) w wk.
Proof.
  induction n as [|n IH]; intros start w w' Hready Hrun.
  - cbn [for_from] in Hrun. unfold ret in Hrun. injection Hrun as <-.
    exists []. split; [reflexivity|]. split; [now apply loop_done_nil|].
    intros k Hk. assert (k = 0%nat) as -> by lia.
    exists w. split; [reflexivity | now apply loop_done_nil].
  - cbn [for_from] in Hrun. bind_inv Hrun; [|discriminate]. destruct a.
    pose proof (loop_body_inv _ _ _ _ _ Hready Hstep) as [offer Hturn].
    pose proof (turn_done_ready _ _ _ _ _ Hready Hturn) as Hready1.
    destruct (IH _ _ _ Hready1 Hrun) as (offers & Hlen & Hloop & Hcuts).
    exists (offer :: offers). split; [cbn [length]; now rewrite Hlen|].
    split; [now apply loop_done_cons with w0|].
    intros [|k] Hk.
    + exists w. split; [reflexivity | now apply loop_done_nil].
    + destruct (Hcuts k ltac:(lia)) as (wk & Hpre & Hdone).
      exists wk. split.
      * cbn [for_from]. now rewrite (bind_ok _ _ _ _ _ Hstep).
      * cbn [firstn]. now apply loop_done_cons with w0.
Qed.

(** *** The turns that the world allows do run *)

Lemma loop_body_runs (i h : nat) (offer : bytes * bytes)
    (rest : list (option bytes)) (w : World) :
  ready h w ->
  entropy w = Some (fst offer) :: Some (snd offer) :: rest ->
  next_write_passes w ->
  exists w', loop_body i w = (Ok tt, w') /\ turn_done i h offer w w'.
Proof.
  intros Hready Hent Hpass.
  destruct (loop_body i w) as [r w'] eqn:Hrun.
  pose proof (loop_body_inv _ _ _ _ _ Hready Hrun) as Hinv.
  destruct r as [[]|e].
  - destruct Hinv as [offer' Hturn]. exists w'. split; [reflexivity|].
    pose proof (td_entropy _ _ _ _ _ Hturn) as E. rewrite Hent in E.
    injection E as E1 E2 _.
    assert (offer' = offer) as ->
      by (destruct offer, offer'; cbn [fst snd] in *; congruence).
    exact Hturn.
  - exfalso. destruct Hinv as [[_ Hfail] | [_ (offer' & j & Hfail)]].
    + apply (df_cause _ _ Hfail (fst offer) (snd offer) rest). exact Hent.
    + apply (Hpass j (write_faults w')). exact (wf_cause _ _ _ _ _ _ Hfail).
Qed.

Lemma writes_pass_next (n : nat) (w : World) :
  writes_pass (S n) w -> next_write_passes w.
Proof.
  unfold writes_pass, next_write_passes. intros H j rest E.
  rewrite E in H. cbn [firstn] in H. inversion H. discriminate.
Qed.

Lemma for_from_runs (h : nat) (offers : list (bytes * bytes)) :
  forall (start : nat) (rest : list (option bytes)) (w : World),
  ready h w ->
  entropy w = offered offers ++ rest ->
  writes_pass (length offers) w ->
  exists w',
    for_from start (length offers) loop_body w = (Ok tt, w') /\
    loop_done start h offers w w'.
Proof.
  induction offers as [|offer offers IH]; intros start rest w Hready Hent Hpass.
  - exists w. split; [reflexivity | now apply loop_done_nil].
  - cbn [offered flat_map app] in Hent. cbn [length] in *.
    destruct (loop_body_runs start h offer _ w Hready Hent
                (writes_pass_next _ _ Hpass)) as (w1 & Hstep & Hturn).
    pose proof (turn_done_ready _ _ _ _ _ Hready Hturn) as Hready1.
    assert (Hent1 : entropy w1 = offered offers ++ rest).
    { pose proof (td_entropy _ _ _ _ _ Hturn) as E. rewrite Hent in E.
      now injection E as <-. }
    assert (Hpass1 : writes_pass (length offers) w1).
    { unfold writes_pass in *. rewrite (td_faults _ _ _ _ _ Hturn).
      destruct (write_faults w) as [|f fr]; cbn [firstn tail] in *.
      - rewrite firstn_nil. constructor.
      - now inversion Hpass. }
    destruct (IH (S start) rest w1 Hready1 Hent1 Hpass1) as (w' & Hrun & Hloop).
    exists w'. split.
    + cbn [for_from]. now rewrite (bind_ok _ _ _ _ _ Hstep).
    + now apply loop_done_cons with w1.
Qed.

(** ** The whole script *)

Lemma open_xb_exists (w : World) :
  is_Some (fs w !! target) ->
  open_xb target w = (Raise FileExistsError, log (EvOpen target None) w).
Proof. intros [c Hc]. unfold open_xb. now rewrite Hc. Qed.

Lemma open_xb_fresh (w : World) :
  fs w !! target = None ->
  open_xb target w =
    (Ok (fresh (dom (fds w))),
     log (EvOpen target (Some (fresh (dom (fds w)))))
       (with_buffers (<[fresh (dom (fds w)) := []]> (buffers w))
          (with_disk (<[target := []]> (disk w))
             (with_fds (<[fresh (dom (fds w)) := target]> (fds w))
                (with_fs (<[target := []]> (fs w)) w))))).
Proof. intros Hc. unfold open_xb. now rewrite Hc. Qed.

Lemma after_turns_exists (k : nat) (w : World) :
  is_Some (fs w !! target) ->
  after_turns k w = (Raise FileExistsError, log (EvOpen target None) w).
Proof.
  intros H. unfold after_turns.
  now rewrite (bind_raise _ _ _ _ _ (open_xb_exists w H)).
Qed.

Lemma after_turns_fresh (k : nat) (w : World) :
  fs w !! target = None ->
  after_turns k w = for_range k loop_body (started w).
Proof.
  intros H. unfold after_turns.
  rewrite (bind_ok _ _ _ _ _ (open_xb_fresh w H)).
  reflexivity.
Qed.

Lemma generate_exists (count : nat) (w : World) :
  is_Some (fs w !! target) ->
  generate count w = (Raise FileExistsError, log (EvOpen target None) w).
Proof.
  intros H. unfold generate.
  now rewrite (bind_raise _ _ _ _ _ (open_xb_exists w H)).
Qed.

Lemma generate_fresh (count : nat) (w : World) :
  fs w !! target = None ->
  generate count w =
    (for_range count loop_body ;; t <- get_total ;; print [str t]) (started w).
Proof.
  intros H. unfold generate.
  rewrite (bind_ok _ _ _ _ _ (open_xb_fresh w H)).
  reflexivity.
Qed.

Lemma started_synced (w : World) :
  synced (fresh (dom (fds w))) target (started w).
Proof.
  unfold started.
  split; unfold file_at, disk_at, buffer_of; world_simpl;
    rewrite ?lookup_insert_eq; cbn [default from_option id length app];
    [reflexivity | lia].
Qed.

Lemma started_ready (w : World) :
  ready (fresh (dom (fds w))) (started w).
Proof.
  unfold started. split; world_simpl.
  - reflexivity.
  - apply lookup_insert_eq.
  - rewrite lookup_insert_eq. eauto.
  - eauto.
Qed.

(** ** Reading a record back *)

Lemma firstn_app_exact {A} (a b : list A) (n : nat) :
  length a = n -> firstn n (a ++ b) = a.
Proof.
  intros <-. rewrite firstn_app, firstn_all, Nat.sub_diag.
  cbn [firstn]. apply app_nil_r.
Qed.

Lemma skipn_app_exact {A} (a b : list A) (n : nat) :
  length a = n -> skipn n (a ++ b) = b.
Proof.
  intros <-. rewrite skipn_app, skipn_all, Nat.sub_diag. reflexivity.
Qed.

Lemma int_from_le_digits_small (k : nat) (n : Z) :
  0 <= n < 256 ^ Z.of_nat k -> int_from_bytes_little (le_digits k n) = n.
Proof. intros H. rewrite int_from_le_digits. now apply Z.mod_small. Qed.

Lemma parse_record_bytes (p rest : bytes) :
  len p < 2 ^ 64 ->
  spec_parse_record (record_bytes p ++ rest) = Some (hash_data p, len p, p, rest).
Proof.
  intros Hfit. unfold spec_parse_record, record_bytes.
  pose proof (length_hash_data p) as Hh.
  pose proof (length_le_digits 8 (len p)) as Hl.
  pose proof (len_nonneg p) as Hp.
  set (dg := hash_data p) in *. set (field := le_digits 8 (len p)) in *.
  assert (H30 : firstn 30 ((dg ++ field ++ p) ++ rest) = dg).
  { rewrite <- app_assoc. now apply firstn_app_exact. }
  assert (S30 : skipn 30 ((dg ++ field ++ p) ++ rest) = field ++ p ++ rest).
  { rewrite <- !app_assoc. now apply skipn_app_exact. }
  assert (H8 : firstn 8 (field ++ p ++ rest) = field).
  { now apply firstn_app_exact. }
  assert (S38 : skipn 38 ((dg ++ field ++ p) ++ rest) = p ++ rest).
  { change 38%nat with (8 + 30)%nat. rewrite <- skipn_skipn, S30.
    now apply skipn_app_exact. }
  rewrite H30, S30, H8, S38.
  assert (Hn : int_from_bytes_little field = len p).
  { subst field. apply int_from_le_digits_small.
    change (256 ^ Z.of_nat 8) with (2 ^ 64). lia. }
  rewrite Hn.
  assert (Hlong : (length ((dg ++ field ++ p) ++ rest) <? 38)%nat = false).
  { apply Nat.ltb_ge. rewrite !length_app. lia. }
  assert (Hbody : (len (p ++ rest) <? len p) = false).
  { apply Z.ltb_ge. rewrite len_app. pose proof (len_nonneg rest). lia. }
  rewrite Hlong, Hbody. cbn [orb].
  unfold len. rewrite Nat2Z.id.
  now rewrite firstn_app_exact, skipn_app_exact.
Qed.

(** Whatever parses as exactly one record is laid out again unchanged,
    whether or not its digest is the hash of its payload. *)
Lemma serialize_parsed (buf dg pl : bytes) (n : Z) :
  spec_parse_record buf = Some (dg, n, pl, []) ->
  spec_serialize_record dg n pl = buf.
Proof.
  unfold spec_parse_record, spec_serialize_record.
  destruct ((length buf <? 38)%nat || _) eqn:Hguard; [discriminate|].
  apply orb_false_iff in Hguard as [Hlong Hbody].
  apply Nat.ltb_ge in Hlong. apply Z.ltb_ge in Hbody.
  intros [= <- <- <- Hrest].
  set (field := firstn 8 (skipn 30 buf)) in *.
  assert (Hfield : length field = 8%nat).
  { subst field. rewrite length_firstn, length_skipn. lia. }
  pose proof (le_digits_of_int field) as Hd. rewrite Hfield in Hd.
  rewrite Hd.
  assert (Hall : firstn (Z.to_nat (int_from_bytes_little field)) (skipn 38 buf)
                 = skipn 38 buf).
  { rewrite <- (firstn_skipn (Z.to_nat (int_from_bytes_little field))
                  (skipn 38 buf)) at 2.
    rewrite Hrest. now rewrite app_nil_r. }
  rewrite Hall. subst field.
  rewrite <- (firstn_skipn 30 buf) at 4. f_equal.
  rewrite <- (firstn_skipn 8 (skipn 30 buf)) at 2. f_equal.
  rewrite skipn_skipn. reflexivity.
Qed.

(** ** The claims about one record *)



(** C2. For every payload, the first 30 bytes of the record the encoder
    returns are the BLAKE2b hash of the payload at a 30-byte digest, and
    the digest is 30 bytes whatever the size of the payload: the rest of
    the record is the 8-byte length and the payload. *)
Theorem record_digest_is_hash (p : bytes) (w : World) :
  len p < 2 ^ 64 ->
  exists buf w',
    encode_entry p w = (Ok buf, w') /\
    firstn 30 buf = Blake2b.digest p 30 /\
    firstn 30 buf = hash_data p /\
    length (firstn 30 buf) = 30%nat /\
    skipn 30 buf = le_digits 8 (len p) ++ p.
Proof.
  intros Hfit. exists (record_bytes p), (log (EvPrint (record_line p)) w).
  split; [now apply encode_entry_run|].
  pose proof (length_hash_data p) as Hh. unfold record_bytes.
  rewrite (firstn_app_exact _ _ _ Hh).
  split; [reflexivity|]. split; [reflexivity|].
  split; [exact Hh|].
  now apply skipn_app_exact.
Qed.

Lemma record_digest_is_hash_witness :
  exists buf w',
    encode_entry (bytes_of_string "abc") quiet_world = (Ok buf, w') /\
    firstn 30 buf = Blake2b.digest (bytes_of_string "abc") 30 /\
    firstn 30 buf = hash_data (bytes_of_string "abc") /\
    length (firstn 30 buf) = 30%nat /\
    skipn 30 buf = le_digits 8 (len (bytes_of_string "abc"))
                   ++ bytes_of_string "abc".
Proof.
  apply (record_digest_is_hash (bytes_of_string "abc") quiet_world).
  vm_compute. reflexivity.
Defined.

(** C3. For every payload, the record the encoder returns parses as
    (its first 30 bytes, the number its next 8 bytes spell in
    little-endian, that many bytes of payload), also when more records
    follow it; the length field decodes to exactly [len p]; laying the
    parsed fields out again, or encoding the parsed payload again, gives
    the same buffer. *)
Theorem record_round_trip (p : bytes) (w : World) :
  len p < 2 ^ 64 ->
  exists buf w',
    encode_entry p w = (Ok buf, w') /\
    (forall rest, spec_parse_record (buf ++ rest) = Some (hash_data p, len p, p, rest)) /\
    int_from_bytes_little (firstn 8 (skipn 30 buf)) = len p /\
    (forall dg n pl,
        spec_parse_record buf = Some (dg, n, pl, []) ->
        spec_serialize_record dg n pl = buf /\
        n = len pl /\
        forall w2, fst (encode_entry pl w2) = Ok buf).
Proof.
  intros Hfit. exists (record_bytes p), (log (EvPrint (record_line p)) w).
  split; [now apply encode_entry_run|].
  split; [intros rest; now apply parse_record_bytes|].
  pose proof (parse_record_bytes p [] Hfit) as Hparse.
  rewrite app_nil_r in Hparse.
  split.
  - unfold record_bytes.
    pose proof (length_hash_data p) as Hh.
    pose proof (length_le_digits 8 (len p)) as Hl.
    rewrite (skipn_app_exact _ _ _ Hh), (firstn_app_exact _ _ _ Hl).
    apply int_from_le_digits_small.
    change (256 ^ Z.of_nat 8) with (2 ^ 64). pose proof (len_nonneg p). lia.
  - intros dg n pl Hp. rewrite Hparse in Hp. injection Hp as <- <- <-.
    split; [reflexivity|]. split; [reflexivity|].
    intros w2. now rewrite encode_entry_run.
Qed.

Lemma record_round_trip_witness :
  exists buf w',
    encode_entry (bytes_of_string "abc") quiet_world = (Ok buf, w') /\
    (forall rest, spec_parse_record (buf ++ rest) =
       Some (hash_data (bytes_of_string "abc"), len (bytes_of_string "abc"),
             bytes_of_string "abc", rest)) /\
    int_from_bytes_little (firstn 8 (skipn 30 buf)) = len (bytes_of_string "abc") /\
    (forall dg n pl,
        spec_parse_record buf = Some (dg, n, pl, []) ->
        spec_serialize_record dg n pl = buf /\
        n = len pl /\
        forall w2, fst (encode_entry pl w2) = Ok buf).
Proof.
  apply (record_round_trip (bytes_of_string "abc") quiet_world).
  vm_compute. reflexivity.
Defined.

(** ** The claim about the random payload *)

Lemma random_data_runs (o1 o2 : bytes) (rest : list (option bytes)) (w : World) :
  entropy w = Some o1 :: Some o2 :: rest ->
  exists w',
    random_data w = (Ok (payload_of (o1, o2)), w') /\
    entropy w' = rest /\
    history w' = history w ++
      [ EvGetrandom 2 (Some (firstn 2 o1));
        EvGetrandom (int_from_bytes_little (firstn 2 o1))
                    (Some (payload_of (o1, o2))) ].
Proof.
  intros Hent. destruct (random_data w) as [r w'] eqn:Hrun.
  pose proof (random_data_inv _ _ _ Hrun) as Hinv. destruct r as [d|e].
  - destruct Hinv as (p1 & p2 & rest' & E & -> & ->).
    rewrite Hent in E. injection E as <- <- <-.
    eexists. split; [reflexivity|]. world_simpl.
    split; [reflexivity | history_assoc].
  - exfalso. destruct Hinv as [_ Hfail].
    exact (df_cause _ _ Hfail o1 o2 rest Hent).
Qed.

Lemma two_bytes_value (n : Z) :
  0 <= n <= 65535 ->
  byte_val (byte_of n) + 256 * byte_val (byte_of (n / 256)) = n.
Proof.
  intros Hn. rewrite !byte_val_of.
  rewrite (Z.mod_small (n / 256)).
  - pose proof (Z.div_mod n 256 ltac:(lia)). lia.
  - split; [apply Z.div_pos; lia|].
    apply Z.div_lt_upper_bound; lia.
Qed.

(** C4. [random_data] reads the random source twice: first 2 bytes, from
    which the size is decoded little-endian, then that many bytes of
    content. Whatever the source answers, the payload is between 0 and
    65535 bytes long. When the source hands over two bytes [b0], [b1]
    and then enough content, the payload is exactly [b0 + 256 * b1]
    bytes long. Every length from 0 to 65535, both ends included, is the
    length of the payload for some answers of the source. *)
Theorem random_data_length_range :
  (forall (w : World) (d : bytes) (w' : World),
      random_data w = (Ok d, w') ->
      exists sz,
        history w' = history w ++
          [ EvGetrandom 2 (Some sz);
            EvGetrandom (int_from_bytes_little sz) (Some d) ] /\
        (length sz <= 2)%nat /\
        (0 <= len d <= int_from_bytes_little sz) /\
        (int_from_bytes_little sz <= 65535)) /\
  (forall (b0 b1 : byte) (content : bytes) (rest : list (option bytes))
          (w : World),
      entropy w = Some [b0; b1] :: Some content :: rest ->
      byte_val b0 + 256 * byte_val b1 <= len content ->
      exists d w',
        random_data w = (Ok d, w') /\
        len d = byte_val b0 + 256 * byte_val b1) /\
  (forall n : Z,
      0 <= n <= 65535 ->
      exists w d w', random_data w = (Ok d, w') /\ len d = n).
Proof.
  split; [|split].
  - intros w d w' Hrun.
    pose proof (random_data_inv _ _ _ Hrun) as (o1 & o2 & rest & E & -> & ->).
    exists (firstn 2 o1). world_simpl.
    split; [history_assoc|]. exact (payload_bound (o1, o2)).
  - intros b0 b1 content rest w Hent Hlen.
    destruct (random_data_runs _ _ _ _ Hent) as (w' & Hrun & _).
    exists (payload_of ([b0; b1], content)), w'. split; [exact Hrun|].
    unfold payload_of, draw_of. cbn [fst snd firstn int_from_bytes_little].
    pose proof (byte_val_range b0). pose proof (byte_val_range b1).
    unfold len in *. rewrite length_firstn. lia.
  - intros n Hn.
    set (content := repeat x00 (Z.to_nat n)).
    set (w := mkWorld ∅ ∅ [Some [byte_of n; byte_of (n / 256)]; Some content]
                [] [] None None None None ∅ ∅ default_buffer_size).
    destruct (random_data_runs [byte_of n; byte_of (n / 256)] content [] w
                eq_refl) as (w' & Hrun & _).
    exists w, (payload_of ([byte_of n; byte_of (n / 256)], content)), w'.
    split; [exact Hrun|].
    unfold payload_of, draw_of. cbn [fst snd firstn int_from_bytes_little].
    rewrite Z.mul_0_r, Z.add_0_r, two_bytes_value by exact Hn.
    unfold len, content. rewrite length_firstn, repeat_length. lia.
Qed.

Lemma random_data_length_range_witness :
  (exists w d w', random_data w = (Ok d, w') /\ len d = 0) /\
  (exists w d w', random_data w = (Ok d, w') /\ len d = 65535).
Proof.
  split.
  - apply (proj2 (proj2 random_data_length_range) 0). lia.
  - apply (proj2 (proj2 random_data_length_range) 65535). lia.
Defined.

(** ** Runs of the whole script *)

Lemma started_turns_done (offers : list (bytes * bytes)) (w wk : World) :
  fs w !! target = None ->
  loop_done 0 (fresh (dom (fds w))) offers (started w) wk ->
  turns_done offers w wk.
Proof.
  intros Hfree [Lent Lfaults Lsync Lsize Lfs Lfds Lhist Lfp Ltotal Li].
  assert (Hfile : file_at (started w) target = []).
  { unfold file_at, started. world_simpl. now rewrite lookup_insert_eq. }
  assert (Hfs : fs wk = <[target := records (payloads offers)]> (fs w)).
  { rewrite Lfs, Hfile. unfold started. world_simpl.
    now rewrite insert_insert_eq. }
  split.
  - exact Hfree.
  - exact Lent.
  - apply Lsync, started_synced.
  - exact Lsize.
  - exact Lfaults.
  - exact Hfs.
  - unfold file_at. now rewrite Hfs, lookup_insert_eq.
  - rewrite Lfds. reflexivity.
  - rewrite Lfp. reflexivity.
  - rewrite Ltotal. unfold started. world_simpl.
    cbn [fmap option_fmap option_map]. f_equal; lia.
  - rewrite Lhist. unfold started. world_simpl. history_assoc.
  - rewrite Li. destruct offers; reflexivity.
Qed.

Lemma for_from_raise_intro (body : nat -> M unit) (n : nat) :
  forall (start k : nat) (w wk w' : World) (e : exn),
  (k < n)%nat ->
  for_from start k body w = (Ok tt, wk) ->
  body (start + k)%nat wk = (Raise e, w') ->
  for_from start n body w = (Raise e, w').
Proof.
  induction n as [|n IH]; intros start k w wk w' e Hk Hpre Hlast; [lia|].
  destruct k as [|k].
  - cbn [for_from] in *. unfold ret in Hpre. injection Hpre as <-.
    rewrite Nat.add_0_r in Hlast.
    now rewrite (bind_raise _ _ _ _ _ Hlast).
  - cbn [for_from] in *. bind_inv Hpre; [|discriminate]. destruct a.
    rewrite (bind_ok _ _ _ _ _ Hstep).
    apply (IH (S start) k w0 wk w' e); [lia | exact Hpre |].
    now replace (S start + k)%nat with (start + S k)%nat by lia.
Qed.

(** Every run of the script, sorted by how it ends. *)
Lemma generate_inv (count : nat) (w : World) (r : result unit) (w' : World) :
  generate count w = (r, w') ->
  (is_Some (fs w !! target) /\
   r = Raise FileExistsError /\
   w' = log (EvOpen target None) w) \/
  (exists offers wn,
      r = Ok tt /\
      length offers = count /\
      after_turns count w = (Ok tt, wn) /\
      turns_done offers w wn /\
      w' = log (EvPrint (str (records_size (payloads offers)))) wn) \/
  (exists e offers wk,
      r = Raise e /\
      (length offers < count)%nat /\
      after_turns (length offers) w = (Ok tt, wk) /\
      turns_done offers w wk /\
      ready (fresh (dom (fds w))) wk /\
      loop_body (length offers) wk = (Raise e, w')).
Proof.
  intros Hrun. destruct (fs w !! target) as [c|] eqn:Hfree.
  - left. rewrite generate_exists in Hrun by (rewrite Hfree; eauto).
    injection Hrun as <- <-. split; [eauto|]. split; reflexivity.
  - right. rewrite generate_fresh in Hrun by exact Hfree.
    pose proof (started_ready w) as Hready.
    bind_inv Hrun.
    + left. destruct a. unfold for_range in Hstep.
      destruct (for_from_ok_inv _ _ _ _ _ Hready Hstep) as (offers & Hlen & Hloop).
      pose proof (started_turns_done _ _ _ Hfree Hloop) as Hdone.
      exists offers, w0.
      bind_inv Hrun; apply lookup_name_inv in Hstep0;
        destruct Hstep0 as [-> Hv]; rewrite (sd_total _ _ _ Hdone) in Hv;
        [|discriminate].
      injection Hv as ->. unfold print in Hrun. cbn [String.concat] in Hrun.
      injection Hrun as <- <-.
      split; [reflexivity|]. split; [exact Hlen|].
      split; [now rewrite after_turns_fresh|].
      split; [exact Hdone | reflexivity].
    + right. subst r. unfold for_range in Hstep.
      destruct (for_from_raise_inv _ _ _ _ _ _ Hstep) as (k & wk & Hk & Hpre & Hlast).
      destruct (for_from_ok_inv _ _ _ _ _ Hready Hpre) as (offers & Hlen & Hloop).
      subst k. cbn [Nat.add] in Hlast.
      exists e, offers, wk.
      split; [reflexivity|]. split; [exact Hk|].
      split; [now rewrite after_turns_fresh|].
      split; [now apply started_turns_done|].
      split; [now apply (loop_done_ready _ _ _ _ _ Hready Hloop) | exact Hlast].
Qed.

(** The script cut after [k] turns, when it gets that far. *)
Lemma after_turns_inv (k : nat) (w wk : World) :
  after_turns k w = (Ok tt, wk) ->
  exists offers,
    length offers = k /\
    turns_done offers w wk /\
    forall j, (j <= k)%nat ->
      exists wj,
        after_turns j w = (Ok tt, wj) /\
        turns_done (firstn j offers) w wj.
Proof.
  intros Hrun. destruct (fs w !! target) as [c|] eqn:Hfree.
  - rewrite after_turns_exists in Hrun by (rewrite Hfree; eauto). discriminate.
  - rewrite after_turns_fresh in Hrun by exact Hfree.
    destruct (for_from_ok_turns _ _ _ _ _ (started_ready w) Hrun)
      as (offers & Hlen & Hloop & Hcuts).
    exists offers. split; [exact Hlen|].
    split; [now apply started_turns_done|].
    intros j Hj. destruct (Hcuts j Hj) as (wj & Hpre & Hdone).
    exists wj. split; [now rewrite after_turns_fresh|].
    now apply started_turns_done.
Qed.

(** The script runs to its end when the target is free, the random
    source answers every read of the turns, and no write fault is
    pending. *)
Lemma generate_runs (offers : list (bytes * bytes)) (rest : list (option bytes))
    (w : World) :
  fs w !! target = None ->
  entropy w = offered offers ++ rest ->
  writes_pass (length offers) w ->
  exists wn,
    after_turns (length offers) w = (Ok tt, wn) /\
    turns_done offers w wn /\
    generate (length offers) w =
      (Ok tt, log (EvPrint (str (records_size (payloads offers)))) wn).
Proof.
  intros Hfree Hent Hpass.
  destruct (for_from_runs (fresh (dom (fds w))) offers 0 rest (started w)
              (started_ready w) Hent Hpass) as (wn & Hrun & Hloop).
  pose proof (started_turns_done _ _ _ Hfree Hloop) as Hdone.
  exists wn. split; [now rewrite after_turns_fresh|]. split; [exact Hdone|].
  rewrite generate_fresh by exact Hfree. unfold for_range.
  rewrite (bind_ok _ _ _ _ _ Hrun).
  unfold get_total, lookup_name, bind.
  rewrite (sd_total _ _ _ Hdone). reflexivity.
Qed.

(** *** How a run leaves the file object and the history *)

Lemma generate_history (count : nat) (w : World) (r : result unit) (w' : World) :
  generate count w = (r, w') ->
  (is_Some (fs w !! target) /\
   r = Raise FileExistsError /\
   history w' = history w ++ [EvOpen target None]) \/
  (fs w !! target = None /\
   exists offers evs,
     (length offers <= count)%nat /\
     last_events (fresh (dom (fds w))) offers r evs /\
     history w' = history w ++
       EvOpen target (Some (fresh (dom (fds w))))
       :: flat_map (turn_events (fresh (dom (fds w)))) offers ++ evs).
Proof.
  intros Hrun.
  destruct (generate_inv _ _ _ _ Hrun)
    as [(Hex & -> & ->)
       | [(offers & wn & -> & Hlen & _ & Hdone & ->)
         | (e & offers & wk & -> & Hlen & _ & Hdone & Hready & Hlast)]].
  - left. split; [exact Hex|]. split; reflexivity.
  - right. split; [exact (sd_free _ _ _ Hdone)|].
    exists offers, [EvPrint (str (records_size (payloads offers)))].
    split; [lia|]. split; [reflexivity|].
    world_simpl. rewrite (sd_history _ _ _ Hdone). history_assoc.
  - right. split; [exact (sd_free _ _ _ Hdone)|].
    pose proof (loop_body_inv _ _ _ _ _ Hready Hlast) as Hinv.
    cbn beta iota in Hinv.
    destruct Hinv as [[-> Hfail] | [-> (offer & j & Hfail)]].
    + destruct (df_history _ _ Hfail) as [Hh | [sz Hh]]; world_simpl.
      * exists offers, [EvGetrandom 2 None]. split; [lia|].
        split; [left; split; [reflexivity | now left]|].
        rewrite Hh, (sd_history _ _ _ Hdone). history_assoc.
      * exists offers, [EvGetrandom 2 (Some sz);
                        EvGetrandom (int_from_bytes_little sz) None].
        split; [lia|].
        split; [left; split; [reflexivity | right; now exists sz]|].
        rewrite Hh, (sd_history _ _ _ Hdone). history_assoc.
    + eexists offers, _. split; [lia|].
      split; [right; split; [reflexivity | exists offer, j; reflexivity]|].
      rewrite (wf_history _ _ _ _ _ _ Hfail), (sd_history _ _ _ Hdone).
      history_assoc.
Qed.

(** Once created, the file object stays in the table of the open ones
    and [fp] stays bound to it, however the run ends. *)
Lemma generate_keeps_open (count : nat) (w : World) (r : result unit) (w' : World) :
  fs w !! target = None ->
  generate count w = (r, w') ->
  var_fp w' = Some (fresh (dom (fds w))) /\
  fds w' = <[fresh (dom (fds w)) := target]> (fds w).
Proof.
  intros Hfree Hrun.
  destruct (generate_inv _ _ _ _ Hrun)
    as [([c Hc] & _)
       | [(offers & wn & -> & Hlen & _ & Hdone & ->)
         | (e & offers & wk & -> & Hlen & _ & Hdone & Hready & Hlast)]].
  - rewrite Hfree in Hc. discriminate.
  - world_simpl.
    split; [exact (sd_fp _ _ _ Hdone) | exact (sd_fds _ _ _ Hdone)].
  - pose proof (loop_body_inv _ _ _ _ _ Hready Hlast) as Hinv.
    cbn beta iota in Hinv.
    destruct Hinv as [[-> Hfail] | [-> (offer & j & Hfail)]].
    + rewrite (df_fp _ _ Hfail), (df_fds _ _ Hfail). world_simpl.
      split; [exact (sd_fp _ _ _ Hdone) | exact (sd_fds _ _ _ Hdone)].
    + rewrite (wf_fp _ _ _ _ _ _ Hfail), (wf_fds _ _ _ _ _ _ Hfail).
      split; [exact (sd_fp _ _ _ Hdone) | exact (sd_fds _ _ _ Hdone)].
Qed.

(** ** The claims about the run *)

(** C5, as stated, fails on the size of the output file: the run of
    the example completes with [total] at 79 and nothing on disk, the
    two records being in the buffer of the file object; and after the
    first turn [total] is 41 with nothing on disk. *)
Lemma file_on_disk_lags_total :
  fst (generate 2 two_turn_world) = Ok tt /\
  var_total (snd (generate 2 two_turn_world)) = Some 79 /\
  disk_at (snd (generate 2 two_turn_world)) target = [] /\
  ~ file_size_is_total (generate 2) two_turn_world /\
  fst (after_turns 1 two_turn_world) = Ok tt /\
  var_total (snd (after_turns 1 two_turn_world)) = Some 41 /\
  ~ file_size_is_total (after_turns 1) two_turn_world.
Proof.
  unfold file_size_is_total.
  repeat split; try (vm_compute; reflexivity); vm_compute; discriminate.
Qed.

Lemma handed_to_app (h : nat) (evs evs' : list event) :
  handed_to h (evs ++ evs') = handed_to h evs ++ handed_to h evs'.
Proof.
  induction evs as [|e evs IH]; [reflexivity|].
  destruct e; cbn [app handed_to]; try exact IH.
  destruct (handle =? h)%nat; [|exact IH].
  now rewrite IH, app_assoc.
Qed.

Lemma handed_to_turns (h : nat) (offers : list (bytes * bytes)) :
  handed_to h (flat_map (turn_events h) offers) = records (payloads offers).
Proof.
  induction offers as [|offer offers IH]; [reflexivity|].
  cbn [flat_map turn_events app handed_to]. rewrite Nat.eqb_refl, IH.
  reflexivity.
Qed.

Lemma turns_done_accounted (offers : list (bytes * bytes)) (w wk : World) :
  turns_done offers w wk ->
  accounted (fresh (dom (fds w))) (payloads offers) w wk.
Proof.
  intros Hdone.
  pose proof (sd_synced _ _ _ Hdone) as [Hfile Hroom].
  rewrite (sd_file _ _ _ Hdone) in Hfile.
  pose proof (len_records (payloads offers)) as Hsize.
  split.
  - exact (sd_total _ _ _ Hdone).
  - exact Hsize.
  - eexists. split; [exact (sd_history _ _ _ Hdone)|].
    cbn [handed_to]. apply handed_to_turns.
  - exact (sd_file _ _ _ Hdone).
  - now symmetry.
  - exact Hroom.
  - rewrite <- Hsize, Hfile, len_app. unfold len. lia.
Qed.

Lemma accounted_print (h : nat) (ps : list bytes) (line : string) (w wk : World) :
  accounted h ps w wk -> accounted h ps w (log (EvPrint line) wk).
Proof.
  intros [Htotal Hsize (evs & Hh & Hevs) Hfile Hdisk Hroom Hlag].
  split; unfold file_at, disk_at, buffer_of in *; world_simpl; try assumption.
  exists (evs ++ [EvPrint line]). split.
  - rewrite Hh. now rewrite app_assoc.
  - rewrite handed_to_app, Hevs. cbn [handed_to]. apply app_nil_r.
Qed.

(** C5, amended. Whenever the script completes, with [count] turns of
    the loop, the counter [total], which is the number the script prints
    last, equals the sum over the payloads drawn of [38 + len payload],
    and this is the number of bytes handed to [fp.write]: the buffers
    handed over are the [count] records, one after the other. The same
    holds after every turn: cut after any [k] of the turns, the script
    has handed over the first [k] records and [total] is the sum over
    the first [k] payloads. The file on disk is a part of it only: the
    disk has the first bytes of the concatenation and the buffer of the
    file object, which the script neither flushes nor closes, has the
    rest; so the size of the file on disk is at most [total] and short
    of it by at most the size of the buffer. *)
Theorem total_is_sum_of_record_sizes (count : nat) (w w' : World) :
  generate count w = (Ok tt, w') ->
  exists offers,
    length offers = count /\
    entropy w = offered offers ++ entropy w' /\
    accounted (fresh (dom (fds w))) (payloads offers) w w' /\
    (exists evs,
        history w' = evs ++ [EvPrint (str (records_size (payloads offers)))]) /\
    forall k, (k <= count)%nat ->
      exists wk,
        after_turns k w = (Ok tt, wk) /\
        accounted (fresh (dom (fds w))) (payloads (firstn k offers)) w wk.
Proof.
  intros Hrun.
  destruct (generate_inv _ _ _ _ Hrun)
    as [(_ & Hr & _)
       | [(offers & wn & _ & Hlen & Hturns & Hdone & ->)
         | (e & _ & _ & Hr & _)]]; try discriminate.
  exists offers.
  split; [exact Hlen|].
  split; [exact (sd_entropy _ _ _ Hdone)|].
  split; [apply accounted_print, turns_done_accounted, Hdone|].
  split; [now exists (history wn)|].
  intros k Hk.
  destruct (after_turns_inv _ _ _ Hturns) as (offers' & _ & Hdone' & Hcuts).
  assert (offers' = offers) as ->.
  { pose proof (sd_entropy _ _ _ Hdone) as Ee.
    rewrite (sd_entropy _ _ _ Hdone') in Ee.
    apply app_inv_tail in Ee. clear -Ee.
    revert offers Ee. induction offers' as [|[a b] os IH]; intros [|[c d] ps] Ee;
      cbn [offered flat_map app] in Ee; try discriminate; [reflexivity|].
    injection Ee as -> -> Ee. f_equal. now apply IH. }
  rewrite <- Hlen in Hk.
  destruct (Hcuts k ltac:(lia)) as (wk & Hpre & Hdonek).
  exists wk. split; [exact Hpre|].
  apply turns_done_accounted, Hdonek.
Qed.

Lemma total_is_sum_of_record_sizes_witness :
  exists offers,
    length offers = 2%nat /\
    entropy two_turn_world =
      offered offers ++ entropy (snd (generate 2 two_turn_world)) /\
    accounted (fresh (dom (fds two_turn_world))) (payloads offers)
      two_turn_world (snd (generate 2 two_turn_world)) /\
    (exists evs,
        history (snd (generate 2 two_turn_world)) =
        evs ++ [EvPrint (str (records_size (payloads offers)))]) /\
    forall k, (k <= 2)%nat ->
      exists wk,
        after_turns k two_turn_world = (Ok tt, wk) /\
        accounted (fresh (dom (fds two_turn_world)))
          (payloads (firstn k offers)) two_turn_world wk.
Proof.
  apply (total_is_sum_of_record_sizes 2 two_turn_world
           (snd (generate 2 two_turn_world))).
  vm_compute. reflexivity.
Defined.

(** The run of the example hands 41 + 38 bytes to [fp.write], all of
    them still in the buffer when the script ends. *)
Example two_turn_total :
  var_total (snd (generate 2 two_turn_world)) = Some 79 /\
  len (file_at (snd (generate 2 two_turn_world)) target) = 79 /\
  len (buffer_of (snd (generate 2 two_turn_world)) 0) = 79 /\
  len (disk_at (snd (generate 2 two_turn_world)) target) = 0.
Proof. vm_compute. repeat split; reflexivity. Qed.

(** Under a disk that takes 51 bytes of the file, the run goes on for
    107 turns with nothing on disk; the write of turn 107 has to flush
    the 4069 bytes in the buffer and fails. [total] is 4069, the disk
    has 51 bytes. *)
Example limited_world_run :
  let (r, w') := generate 401 limited_world in
  r = Raise (OSError WriteFailed) /\
  var_i w' = Some 107%nat /\
  var_total w' = Some 4069 /\
  len (disk_at w' target) = 51 /\
  len (buffer_of w' 0) = 4018.
Proof. vm_compute. repeat split. Qed.

(** The scenario of the specification runs to its end with [total] at
    65654 and as many bytes written, the first 38 of them the record of
    the empty payload. Here all of them are on disk: the third record
    is longer than the buffer, so its write flushes the two records
    before it and goes to the disk itself. *)
Example spec_scenario :
  let (r, w') := generate 3 scenario_world in
  r = Ok tt /\
  var_total w' = Some 65654 /\
  len (file_at w' target) = 65654 /\
  firstn 38 (file_at w' target) = hash_data [] ++ le_digits 8 0 /\
  len (disk_at w' target) = 65654.
Proof. vm_compute. repeat split. Qed.

(** C6. When the target path already holds a file, the script fails at
    the [open] with [FileExistsError]: the files are left as they were,
    no file object is created, the random source is not read, nothing is
    written or printed, and no global is bound. The one thing the run
    leaves is the failed [open] in the history. This holds for every
    count of records, so for [main]. *)
Theorem existing_target_is_refused (count : nat) (w : World) :
  is_Some (fs w !! target) ->
  exists w',
    generate count w = (Raise FileExistsError, w') /\
    open_xb target w = (Raise FileExistsError, w') /\
    fs w' = fs w /\
    fds w' = fds w /\
    entropy w' = entropy w /\
    write_faults w' = write_faults w /\
    history w' = history w ++ [EvOpen target None] /\
    var_fp w' = var_fp w /\
    var_total w' = var_total w /\
    var_buf w' = var_buf w.
Proof.
  intros Hex. exists (log (EvOpen target None) w).
  split; [now apply generate_exists|].
  split; [now apply open_xb_exists|].
  world_simpl. repeat split.
Qed.

Lemma existing_target_is_refused_witness :
  exists w',
    generate record_count occupied_world = (Raise FileExistsError, w') /\
    open_xb target occupied_world = (Raise FileExistsError, w') /\
    fs w' = fs occupied_world /\
    fds w' = fds occupied_world /\
    entropy w' = entropy occupied_world /\
    write_faults w' = write_faults occupied_world /\
    history w' = history occupied_world ++ [EvOpen target None] /\
    var_fp w' = var_fp occupied_world /\
    var_total w' = var_total occupied_world /\
    var_buf w' = var_buf occupied_world.
Proof.
  apply (existing_target_is_refused record_count occupied_world).
  vm_compute. eexists. reflexivity.
Defined.

(** C7. The driver is a counted loop. The count is a parameter of
    [generate]; [main] fixes it at 100000. A run that completes made
    exactly [count] turns: each read the size, read the payload, printed
    the line of the record and wrote the record, in this order, and the
    turns follow one another with the loop variable going from 0 to
    [count - 1]; after the last turn the script prints the total and
    ends. And the run does complete when the target is free, the random
    source answers the reads of [count] turns, and no write fault is
    pending. *)
Theorem driver_makes_count_turns :
  Z.of_nat record_count = 100000 /\
  main = generate record_count /\
  (forall (count : nat) (w w' : World),
      generate count w = (Ok tt, w') ->
      exists offers,
        length offers = count /\
        entropy w = offered offers ++ entropy w' /\
        history w' = history w ++
          EvOpen target (Some (fresh (dom (fds w))))
          :: flat_map (turn_events (fresh (dom (fds w)))) offers
          ++ [EvPrint (str (records_size (payloads offers)))] /\
        file_at w' target = records (payloads offers) /\
        var_i w' = match count with
                   | O => var_i w
                   | S k => Some k
                   end) /\
  (forall (offers : list (bytes * bytes)) (rest : list (option bytes))
          (w : World),
      fs w !! target = None ->
      entropy w = offered offers ++ rest ->
      writes_pass (length offers) w ->
      exists w', generate (length offers) w = (Ok tt, w')).
Proof.
  split; [unfold record_count; now rewrite Z2Nat.id by lia|].
  split; [reflexivity|].
  split.
  - intros count w w' Hrun.
    destruct (generate_inv _ _ _ _ Hrun)
      as [(_ & Hr & _)
         | [(offers & wn & _ & Hlen & Hturns & Hdone & ->)
           | (e & _ & _ & Hr & _)]]; try discriminate.
    exists offers. unfold file_at. world_simpl.
    split; [exact Hlen|].
    split; [exact (sd_entropy _ _ _ Hdone)|].
    split; [rewrite (sd_history _ _ _ Hdone); history_assoc|].
    split; [exact (sd_file _ _ _ Hdone)|].
    rewrite (sd_i _ _ _ Hdone). subst count.
    destruct offers as [|o os]; [reflexivity|].
    cbn [length]. f_equal. lia.
  - intros offers rest w Hfree Hent Hpass.
    destruct (generate_runs offers rest w Hfree Hent Hpass) as (wn & _ & _ & Hrun).
    eexists. exact Hrun.
Qed.

Lemma driver_makes_count_turns_witness :
  exists offers,
    length offers = 2%nat /\
    entropy two_turn_world =
      offered offers ++ entropy (snd (generate 2 two_turn_world)) /\
    history (snd (generate 2 two_turn_world)) =
      history two_turn_world ++
        EvOpen target (Some (fresh (dom (fds two_turn_world))))
        :: flat_map (turn_events (fresh (dom (fds two_turn_world)))) offers
        ++ [EvPrint (str (records_size (payloads offers)))] /\
    file_at (snd (generate 2 two_turn_world)) target
      = records (payloads offers) /\
    var_i (snd (generate 2 two_turn_world)) = Some 1%nat.
Proof.
  apply (proj1 (proj2 (proj2 driver_makes_count_turns))
           2%nat two_turn_world (snd (generate 2 two_turn_world))).
  vm_compute. reflexivity.
Defined.

Lemma generate_source_dry (count : nat) (offers : list (bytes * bytes))
    (rest : list (option bytes)) (w : World) :
  fs w !! target = None ->
  entropy w = offered offers ++ rest ->
  (forall o1 o2 r, rest <> Some o1 :: Some o2 :: r) ->
  writes_pass (length offers) w ->
  (length offers < count)%nat ->
  exists w', generate count w = (Raise (OSError GetrandomFailed), w').
Proof.
  intros Hfree Hent Hdry Hpass Hlen.
  pose proof (started_ready w) as Hready.
  destruct (for_from_runs (fresh (dom (fds w))) offers 0 rest (started w)
              Hready Hent Hpass) as (wk & Hrun & Hloop).
  pose proof (loop_done_ready _ _ _ _ _ Hready Hloop) as Hreadyk.
  assert (Hrest : entropy wk = rest).
  { pose proof (ld_entropy _ _ _ _ _ Hloop) as E.
    change (entropy (started w)) with (entropy w) in E.
    rewrite Hent in E. now apply app_inv_head in E. }
  destruct (loop_body (length offers) wk) as [r w'] eqn:Hlast.
  pose proof (loop_body_inv _ _ _ _ _ Hreadyk Hlast) as Hinv.
  assert (Hr : r = Raise (OSError GetrandomFailed)).
  { destruct r as [[]|e].
    - destruct Hinv as [offer Hturn]. exfalso.
      pose proof (td_entropy _ _ _ _ _ Hturn) as E. rewrite Hrest in E.
      exact (Hdry _ _ _ E).
    - destruct Hinv as [[-> _] | [_ (offer & j & Hfail)]]; [reflexivity|].
      exfalso. pose proof (wf_entropy _ _ _ _ _ _ Hfail) as E.
      rewrite Hrest in E. exact (Hdry _ _ _ E). }
  subst r. exists w'.
  rewrite generate_fresh by exact Hfree. unfold for_range.
  now rewrite (bind_raise _ _ _ _ _
                 (for_from_raise_intro _ _ _ _ _ _ _ _ Hlen Hrun Hlast)).
Qed.

(** C8. When a run ends on a failure of the random source, it made some
    complete turns, fewer than [count], and failed in the draw of the
    next one, at the size or at the content: that draw wrote nothing and
    printed nothing. The files and the counter [total] are those reached
    after the last complete turn: the file holds the whole records of
    the turns made and nothing else, and [total] is their size. The
    failed read is the last event of the run. And the run does end this
    way when the source has no answer, at the size or at the content,
    for a turn the loop still has to make. *)
Theorem entropy_failure_leaves_whole_records :
  (forall (count : nat) (w w' : World),
      generate count w = (Raise (OSError GetrandomFailed), w') ->
      exists offers wk,
        (length offers < count)%nat /\
        after_turns (length offers) w = (Ok tt, wk) /\
        source_dry wk /\
        fs w' = fs wk /\
        var_total w' = var_total wk /\
        file_at w' target = records (payloads offers) /\
        var_total w' = Some (records_size (payloads offers)) /\
        (history w' = history wk ++ [EvGetrandom 2 None] \/
         exists sz, history w' =
           history wk ++ [EvGetrandom 2 (Some sz);
                          EvGetrandom (int_from_bytes_little sz) None])) /\
  (forall (count : nat) (offers : list (bytes * bytes))
          (rest : list (option bytes)) (w : World),
      fs w !! target = None ->
      entropy w = offered offers ++ rest ->
      (forall o1 o2 r, rest <> Some o1 :: Some o2 :: r) ->
      writes_pass (length offers) w ->
      (length offers < count)%nat ->
      exists w', generate count w = (Raise (OSError GetrandomFailed), w')).
Proof.
  split.
  - intros count w w' Hrun.
    destruct (generate_inv _ _ _ _ Hrun)
      as [(_ & Hr & _)
         | [(_ & _ & Hr & _)
           | (e & offers & wk & Hr & Hlen & Hturns & Hdone & Hready & Hlast)]];
      try discriminate.
    injection Hr as <-.
    pose proof (loop_body_inv _ _ _ _ _ Hready Hlast) as Hinv.
    cbn beta iota in Hinv.
    destruct Hinv as [[_ Hfail] | [Hr _]]; [|discriminate].
    exists offers, wk.
    pose proof (df_fs _ _ Hfail) as Hfs.
    pose proof (df_total _ _ Hfail) as Htotal.
    pose proof (df_history _ _ Hfail) as Hhist.
    pose proof (df_cause _ _ Hfail) as Hdry.
    world_simpl.
    split; [exact Hlen|]. split; [exact Hturns|].
    split; [exact Hdry|]. split; [exact Hfs|]. split; [exact Htotal|].
    split; [unfold file_at; rewrite Hfs; exact (sd_file _ _ _ Hdone)|].
    split; [rewrite Htotal; exact (sd_total _ _ _ Hdone)|].
    exact Hhist.
  - exact generate_source_dry.
Qed.

Lemma entropy_failure_leaves_whole_records_witness :
  exists offers wk,
    (length offers < 2)%nat /\
    after_turns (length offers) drying_world = (Ok tt, wk) /\
    source_dry wk /\
    fs (snd (generate 2 drying_world)) = fs wk /\
    var_total (snd (generate 2 drying_world)) = var_total wk /\
    file_at (snd (generate 2 drying_world)) target = records (payloads offers) /\
    var_total (snd (generate 2 drying_world))
      = Some (records_size (payloads offers)) /\
    (history (snd (generate 2 drying_world))
       = history wk ++ [EvGetrandom 2 None] \/
     exists sz, history (snd (generate 2 drying_world)) =
       history wk ++ [EvGetrandom 2 (Some sz);
                      EvGetrandom (int_from_bytes_little sz) None]).
Proof.
  apply (proj1 entropy_failure_leaves_whole_records
           2%nat drying_world (snd (generate 2 drying_world))).
  vm_compute. reflexivity.
Defined.

(** The run of the example stops in its second turn with one record of
    39 bytes in the file. *)
Example drying_world_run :
  fst (generate 2 drying_world) = Raise (OSError GetrandomFailed) /\
  file_at (snd (generate 2 drying_world)) target
    = record_bytes (bytes_of_string "a") /\
  var_total (snd (generate 2 drying_world)) = Some 39.
Proof. vm_compute. repeat split. Qed.

(** *** The line of a record comes before its write *)

Lemma lines_precede_writes_nil : lines_precede_writes [].
Proof. intros [|e pre] h data fault post E; discriminate. Qed.

Lemma lines_precede_writes_cons (e : event) (evs : list event) :
  ~ is_write e ->
  lines_precede_writes evs ->
  lines_precede_writes (e :: evs).
Proof.
  intros He Hevs [|e' pre] h data fault post E.
  - injection E as -> _. now destruct He.
  - injection E as <- E. destruct (Hevs _ _ _ _ _ E) as (pre' & p & -> & ->).
    exists (e :: pre'), p. split; reflexivity.
Qed.

Lemma lines_precede_writes_record (p : bytes) (h : nat) (fault : option nat)
    (evs : list event) :
  lines_precede_writes evs ->
  lines_precede_writes
    (EvPrint (record_line p) :: EvWrite h (record_bytes p) fault :: evs).
Proof.
  intros Hevs [|e1 [|e2 pre]] h' data fault' post E.
  - discriminate.
  - injection E as <- <- <- <- <-. exists [], p. split; reflexivity.
  - injection E as <- <- E.
    destruct (Hevs _ _ _ _ _ E) as (pre' & q & -> & ->).
    exists (EvPrint (record_line p) :: EvWrite h (record_bytes p) fault :: pre'), q.
    split; reflexivity.
Qed.

Lemma lines_precede_writes_turns (h : nat) (offers : list (bytes * bytes))
    (evs : list event) :
  lines_precede_writes evs ->
  lines_precede_writes (flat_map (turn_events h) offers ++ evs).
Proof.
  intros Hevs. induction offers as [|offer offers IH]; [exact Hevs|].
  cbn [flat_map turn_events app].
  apply lines_precede_writes_cons; [exact id|].
  apply lines_precede_writes_cons; [exact id|].
  now apply lines_precede_writes_record.
Qed.

(** C10. In every run, however it ends, each write to the file, passed
    or failed, comes right after the console line of the record it
    writes: the line with the hex digest and the length of the payload is
    printed inside [random_entry], before the buffer is returned to the
    loop and handed to [fp.write]. So when a run ends on a failed write,
    the last two events are the line of the record and the failed write
    of that record. *)
Theorem console_line_precedes_write (count : nat) (w : World)
    (r : result unit) (w' : World) :
  generate count w = (r, w') ->
  exists evs,
    history w' = history w ++ evs /\
    lines_precede_writes evs /\
    (r = Raise (OSError WriteFailed) ->
     exists pre p h j,
       evs = pre ++ [ EvPrint (record_line p);
                      EvWrite h (record_bytes p) (Some j) ]).
Proof.
  intros Hrun.
  destruct (generate_history _ _ _ _ Hrun)
    as [(_ & -> & Hh) | (_ & offers & evs & _ & Hlast & Hh)].
  - exists [EvOpen target None]. split; [exact Hh|]. split; [|discriminate].
    apply lines_precede_writes_cons; [exact id | apply lines_precede_writes_nil].
  - eexists. split; [exact Hh|].
    destruct r as [[]|e]; cbn [last_events] in Hlast.
    + subst evs. split; [|discriminate].
      apply lines_precede_writes_cons; [exact id|].
      apply lines_precede_writes_turns.
      apply lines_precede_writes_cons; [exact id | apply lines_precede_writes_nil].
    + destruct Hlast as [[-> Hevs] | [-> (offer & j & ->)]].
      * split; [|discriminate].
        apply lines_precede_writes_cons; [exact id|].
        apply lines_precede_writes_turns.
        destruct Hevs as [-> | [sz ->]];
          repeat (apply lines_precede_writes_cons; [exact id|]);
          apply lines_precede_writes_nil.
      * split.
        -- apply lines_precede_writes_cons; [exact id|].
           apply lines_precede_writes_turns.
           apply lines_precede_writes_cons; [exact id|].
           apply lines_precede_writes_cons; [exact id|].
           apply lines_precede_writes_record, lines_precede_writes_nil.
        -- intros _.
           exists (EvOpen target (Some (fresh (dom (fds w))))
                   :: flat_map (turn_events (fresh (dom (fds w)))) offers
                   ++ [ EvGetrandom 2 (Some (fst (draw_of offer)));
                        EvGetrandom (int_from_bytes_little (fst (draw_of offer)))
                                    (Some (payload_of offer)) ]),
             (payload_of offer), (fresh (dom (fds w))), j.
           cbn [app]. f_equal. now rewrite <- app_assoc.
Qed.

Lemma console_line_precedes_write_witness :
  fst (generate 2 faulty_world) = Raise (OSError WriteFailed) /\
  exists evs,
    history (snd (generate 2 faulty_world)) = history faulty_world ++ evs /\
    lines_precede_writes evs /\
    (fst (generate 2 faulty_world) = Raise (OSError WriteFailed) ->
     exists pre p h j,
       evs = pre ++ [ EvPrint (record_line p);
                      EvWrite h (record_bytes p) (Some j) ]).
Proof.
  split; [vm_compute; reflexivity|].
  apply (console_line_precedes_write 2 faulty_world
           (fst (generate 2 faulty_world)) (snd (generate 2 faulty_world))).
  vm_compute. reflexivity.
Defined.

(** The run of the example: the line of the second record is on the
    console, and its write fails while it flushes the first record, of
    which ten bytes reach the disk; the file object took nothing of the
    second record, and [total] counts the first. *)
Example faulty_world_run :
  last (history (snd (generate 2 faulty_world)))
    = Some (EvWrite 0 (record_bytes []) (Some 10%nat)) /\
  In (EvPrint (record_line [])) (history (snd (generate 2 faulty_world))) /\
  file_at (snd (generate 2 faulty_world)) target
    = record_bytes (bytes_of_string "abc") /\
  disk_at (snd (generate 2 faulty_world)) target
    = firstn 10 (record_bytes (bytes_of_string "abc")) /\
  buffer_of (snd (generate 2 faulty_world)) 0
    = skipn 10 (record_bytes (bytes_of_string "abc")) /\
  var_total (snd (generate 2 faulty_world)) = Some 41.
Proof. vm_compute. intuition. Qed.

(** *** The file object is left open *)

(** What closing would look like: after [fp.close()] the run does end
    with the file object closed. *)
Example closed_at_exit_after_close :
  closed_at_exit (generate 0 ;; h <- get_fp ;; file_close h) quiet_world.
Proof. intros h. vm_compute. intros [= <-]. reflexivity. Qed.

(** C9, as stated, fails: [main], run in a world whose random source has
    nothing to give, ends on the failure of the first read with its file
    object still open. *)
Lemma main_leaves_file_open : ~ closed_at_exit main quiet_world.
Proof.
  intros Hclosed.
  assert (Hfp : var_fp (snd (main quiet_world)) = Some 0%nat)
    by (vm_compute; reflexivity).
  apply Hclosed in Hfp. vm_compute in Hfp. discriminate.
Qed.

Lemma not_close_turn_events (h h' : nat) (offers : list (bytes * bytes)) :
  ~ In (EvClose h') (flat_map (turn_events h) offers).
Proof.
  intros Hin. apply in_flat_map in Hin as (offer & _ & Hin).
  cbn [turn_events In] in Hin.
  destruct Hin as [E | [E | [E | [E | []]]]]; discriminate.
Qed.

(** C9, amended. The file object comes from a plain [open] bound to the
    module-level name [fp]; nothing in the script closes it. From a free
    target on, however the run ends (completion, failure of the random
    source, failure of a write), [fp] is bound to the file object that
    [open] returned, that object is still open on the target, and the run
    made no call to [close]. *)
Theorem file_object_is_never_closed (count : nat) (w : World)
    (r : result unit) (w' : World) :
  fs w !! target = None ->
  generate count w = (r, w') ->
  var_fp w' = Some (fresh (dom (fds w))) /\
  fds w' !! fresh (dom (fds w)) = Some target /\
  exists evs,
    history w' = history w ++ EvOpen target (Some (fresh (dom (fds w)))) :: evs /\
    forall h, ~ In (EvClose h) evs.
Proof.
  intros Hfree Hrun.
  destruct (generate_keeps_open _ _ _ _ Hfree Hrun) as [Hfp Hfds].
  split; [exact Hfp|]. split; [rewrite Hfds; apply lookup_insert_eq|].
  destruct (generate_history _ _ _ _ Hrun)
    as [([c Hc] & _) | (_ & offers & evs & _ & Hlast & Hh)].
  - rewrite Hfree in Hc. discriminate.
  - eexists. split; [exact Hh|].
    intros h Hin. apply in_app_or in Hin as [Hin | Hin].
    + exact (not_close_turn_events _ _ _ Hin).
    + destruct r as [[]|e]; cbn [last_events] in Hlast.
      * subst evs. destruct Hin as [E | []]. discriminate.
      * destruct Hlast as [[_ [-> | [sz ->]]] | [_ (offer & j & ->)]];
          cbn [In] in Hin; intuition discriminate.
Qed.

Lemma file_object_is_never_closed_witness :
  var_fp (snd (generate 2 two_turn_world))
    = Some (fresh (dom (fds two_turn_world))) /\
  fds (snd (generate 2 two_turn_world)) !! fresh (dom (fds two_turn_world))
    = Some target /\
  exists evs,
    history (snd (generate 2 two_turn_world)) =
      history two_turn_world
      ++ EvOpen target (Some (fresh (dom (fds two_turn_world)))) :: evs /\
    forall h, ~ In (EvClose h) evs.
Proof.
  apply (file_object_is_never_closed 2 two_turn_world
           (fst (generate 2 two_turn_world)) (snd (generate 2 two_turn_world))).
  - vm_compute. reflexivity.
  - vm_compute. reflexivity.
Defined.

(** * Further properties of the script *)

(** ** Where a run can end, and what it leaves behind *)

(** However a run from a free target ends, the files are those of the
    start with some content at the target. *)
Lemma generate_fs (count : nat) (w : World) (r : result unit) (w' : World) :
  fs w !! target = None ->
  generate count w = (r, w') ->
  exists content, fs w' = <[target := content]> (fs w).
Proof.
  intros Hfree Hrun.
  destruct (generate_inv _ _ _ _ Hrun)
    as [([c Hc] & _)
       | [(offers & wn & -> & Hlen & _ & Hdone & ->)
         | (e & offers & wk & -> & Hlen & _ & Hdone & Hready & Hlast)]].
  - rewrite Hfree in Hc. discriminate.
  - eexists. world_simpl. exact (sd_fs _ _ _ Hdone).
  - pose proof (loop_body_inv _ _ _ _ _ Hready Hlast) as Hinv.
    cbn beta iota in Hinv.
    destruct Hinv as [[-> Hfail] | [-> (offer & j & Hfail)]].
    + eexists. rewrite (df_fs _ _ Hfail). world_simpl.
      exact (sd_fs _ _ _ Hdone).
    + destruct (wf_fs _ _ _ _ _ _ Hfail) as (part & _ & _ & ->).
      eexists. rewrite (sd_fs _ _ _ Hdone).
      now rewrite insert_insert_eq.
Qed.

(** X1. The script never trips over one of its own steps. Whatever the
    world does to it, a run that fails does not fail on a name that is
    unbound when it is read ([fp], [total] and [buf] are bound before
    the loop reads them), nor on [to_bytes], which never overflows the
    8-byte field, nor on a negative size passed to [getrandom]. *)
Theorem run_never_trips_on_own_steps (count : nat) (w : World) (e : exn)
    (w' : World) :
  generate count w = (Raise e, w') ->
  (forall name, e <> NameError name) /\
  e <> OverflowError /\
  e <> OSError GetrandomInvalid.
Proof.
  intros Hrun.
  destruct (generate_inv _ _ _ _ Hrun)
    as [(Hex & Hr & _)
       | [(offers & wn & Hr & _)
         | (e' & offers & wk & Hr & Hlen & _ & Hdone & Hready & Hlast)]].
  - injection Hr as ->. repeat split; try intros name; discriminate.
  - discriminate.
  - injection Hr as <-.
    pose proof (loop_body_inv _ _ _ _ _ Hready Hlast) as Hinv.
    cbn beta iota in Hinv.
    destruct Hinv as [[-> _] | [-> _]];
      repeat split; try intros name; discriminate.
Qed.

Lemma run_never_trips_on_own_steps_witness :
  (forall name, OSError GetrandomFailed <> NameError name) /\
  OSError GetrandomFailed <> OverflowError /\
  OSError GetrandomFailed <> OSError GetrandomInvalid.
Proof.
  apply (run_never_trips_on_own_steps 2 drying_world (OSError GetrandomFailed)
           (snd (generate 2 drying_world))).
  vm_compute. reflexivity.
Defined.

Lemma offered_app (xs ys : list (bytes * bytes)) :
  offered (xs ++ ys) = offered xs ++ offered ys.
Proof. unfold offered. apply flat_map_app. Qed.

(** X2. When a run ends on a failed write, in turn [i], the file object
    had taken the whole records of the [i] turns before, and [total] is
    their size. What the failed call added is nothing, or, of a record
    longer than the buffer, the part that went to the disk directly.
    The payload of the failed record was drawn from the random source
    and is lost. The disk has the first bytes of all this and the
    buffer, still within its size, the rest: so the file on disk may be
    much shorter than [total]. *)
Theorem write_failure_counts_whole_records (count : nat) (w w' : World) :
  generate count w = (Raise (OSError WriteFailed), w') ->
  exists offers offer j part,
    (length offers < count)%nat /\
    entropy w = offered (offers ++ [offer]) ++ entropy w' /\
    skipn (length offers) (write_faults w) = Some j :: write_faults w' /\
    var_i w' = Some (length offers) /\
    var_total w' = Some (records_size (payloads offers)) /\
    part `prefix_of` record_bytes (payload_of offer) /\
    (part <> [] ->
     (buffer_size w < length (record_bytes (payload_of offer)))%nat) /\
    file_at w' target = records (payloads offers) ++ part /\
    disk_at w' target ++ buffer_of w' (fresh (dom (fds w)))
      = records (payloads offers) ++ part /\
    (length (buffer_of w' (fresh (dom (fds w)))) <= buffer_size w)%nat.
Proof.
  intros Hrun.
  destruct (generate_inv _ _ _ _ Hrun)
    as [(_ & Hr & _)
       | [(_ & _ & Hr & _)
         | (e & offers & wk & Hr & Hk & _ & Hdone & Hreadyk & Hlast)]];
    try discriminate.
  injection Hr as <-.
  pose proof (loop_body_inv _ _ _ _ _ Hreadyk Hlast) as Hinv.
  cbn beta iota in Hinv.
  destruct Hinv as [[Hr _] | [_ (offer & j & Hfail)]]; [discriminate|].
  destruct (wf_fs _ _ _ _ _ _ Hfail) as (part & Hprefix & Hpart & Hfs).
  assert (Hfile : file_at w' target = records (payloads offers) ++ part).
  { unfold file_at at 1. rewrite Hfs, lookup_insert_eq.
    cbn [default from_option]. unfold id. now rewrite (sd_file _ _ _ Hdone). }
  pose proof (wf_synced _ _ _ _ _ _ Hfail (sd_synced _ _ _ Hdone))
    as [Hsync Hroom].
  rewrite (wf_size _ _ _ _ _ _ Hfail), (sd_size _ _ _ Hdone) in Hroom.
  rewrite (sd_size _ _ _ Hdone) in Hpart.
  exists offers, offer, j, part.
  split; [exact Hk|]. split.
  { rewrite offered_app, <- app_assoc, (sd_entropy _ _ _ Hdone).
    now rewrite (wf_entropy _ _ _ _ _ _ Hfail). }
  split.
  { rewrite <- (sd_faults _ _ _ Hdone). exact (wf_cause _ _ _ _ _ _ Hfail). }
  split; [exact (wf_i _ _ _ _ _ _ Hfail)|].
  split; [rewrite (wf_total _ _ _ _ _ _ Hfail); exact (sd_total _ _ _ Hdone)|].
  split; [exact Hprefix|]. split; [exact Hpart|].
  split; [exact Hfile|].
  split; [now rewrite <- Hsync | exact Hroom].
Qed.

Lemma write_failure_counts_whole_records_witness :
  exists offers offer j part,
    (length offers < 2)%nat /\
    entropy faulty_world =
      offered (offers ++ [offer]) ++ entropy (snd (generate 2 faulty_world)) /\
    skipn (length offers) (write_faults faulty_world) =
      Some j :: write_faults (snd (generate 2 faulty_world)) /\
    var_i (snd (generate 2 faulty_world)) = Some (length offers) /\
    var_total (snd (generate 2 faulty_world))
      = Some (records_size (payloads offers)) /\
    part `prefix_of` record_bytes (payload_of offer) /\
    (part <> [] ->
     (buffer_size faulty_world < length (record_bytes (payload_of offer)))%nat) /\
    file_at (snd (generate 2 faulty_world)) target
      = records (payloads offers) ++ part /\
    disk_at (snd (generate 2 faulty_world)) target
      ++ buffer_of (snd (generate 2 faulty_world)) (fresh (dom (fds faulty_world)))
      = records (payloads offers) ++ part /\
    (length (buffer_of (snd (generate 2 faulty_world))
               (fresh (dom (fds faulty_world))))
     <= buffer_size faulty_world)%nat.
Proof.
  apply (write_failure_counts_whole_records 2 faulty_world
           (snd (generate 2 faulty_world))).
  vm_compute. reflexivity.
Defined.

(** X3. A run writes to the target and to nothing else: every other
    path holds after the run what it held before, and every file object
    that was open before is open on the same path after; the one object
    the run adds is the one it opened. This holds however the run
    ends. *)
Theorem run_touches_only_target (count : nat) (w : World) (r : result unit)
    (w' : World) :
  generate count w = (r, w') ->
  (forall path, path <> target -> fs w' !! path = fs w !! path) /\
  (forall h, h <> fresh (dom (fds w)) -> fds w' !! h = fds w !! h) /\
  (forall h, is_Some (fds w !! h) -> fds w' !! h = fds w !! h).
Proof.
  intros Hrun. destruct (fs w !! target) as [c|] eqn:Hfree.
  - rewrite generate_exists in Hrun by (rewrite Hfree; eauto).
    injection Hrun as <- <-. world_simpl. repeat split.
  - destruct (generate_fs _ _ _ _ Hfree Hrun) as [content ->].
    destruct (generate_keeps_open _ _ _ _ Hfree Hrun) as [_ ->].
    split; [|split].
    + intros path Hpath. now rewrite lookup_insert_ne.
    + intros h Hh. now rewrite lookup_insert_ne.
    + intros h Hopen. rewrite lookup_insert_ne; [reflexivity|].
      intros <-. apply elem_of_dom in Hopen.
      exact (is_fresh (dom (fds w)) Hopen).
Qed.

Lemma run_touches_only_target_witness :
  (forall path, path <> target ->
     fs (snd (generate 2 faulty_world)) !! path = fs faulty_world !! path) /\
  (forall h, h <> fresh (dom (fds faulty_world)) ->
     fds (snd (generate 2 faulty_world)) !! h = fds faulty_world !! h) /\
  (forall h, is_Some (fds faulty_world !! h) ->
     fds (snd (generate 2 faulty_world)) !! h = fds faulty_world !! h).
Proof.
  apply (run_touches_only_target 2 faulty_world
           (fst (generate 2 faulty_world)) (snd (generate 2 faulty_world))).
  vm_compute. reflexivity.
Defined.

(** ** The records as a code for the payloads *)

(** When [encode_entry] returns, the payload fits the length field and
    the buffer is the record of the payload. *)
Lemma encode_entry_ok_inv (p b : bytes) (w w' : World) :
  encode_entry p w = (Ok b, w') ->
  len p < 2 ^ 64 /\ b = record_bytes p.
Proof.
  intros Hrun. destruct (Z_lt_ge_dec (len p) (2 ^ 64)) as [Hfit | Hbig].
  - split; [exact Hfit|]. rewrite encode_entry_run in Hrun by exact Hfit.
    now injection Hrun as <- _.
  - exfalso. unfold encode_entry, bind, lift in Hrun.
    rewrite to_bytes_little_overflow in Hrun; [discriminate|].
    change (256 ^ Z.of_nat 8) with (2 ^ 64). lia.
Qed.

Lemma record_bytes_app_inj (p q r1 r2 : bytes) :
  len p < 2 ^ 64 -> len q < 2 ^ 64 ->
  record_bytes p ++ r1 = record_bytes q ++ r2 ->
  p = q /\ r1 = r2.
Proof.
  intros Hp Hq E.
  pose proof (parse_record_bytes p r1 Hp) as P1.
  pose proof (parse_record_bytes q r2 Hq) as P2.
  rewrite E, P2 in P1. injection P1 as _ _ -> ->. split; reflexivity.
Qed.

Lemma records_inj (ps : list bytes) : forall qs : list bytes,
  Forall (fun p => len p < 2 ^ 64) ps ->
  Forall (fun p => len p < 2 ^ 64) qs ->
  records ps = records qs ->
  ps = qs.
Proof.
  induction ps as [|p ps IH]; intros [|q qs] Hps Hqs E.
  - reflexivity.
  - exfalso. apply (f_equal len) in E. unfold records in E.
    cbn [map concat] in E. rewrite len_app, len_record_bytes in E.
    pose proof (len_nonneg q). pose proof (len_nonneg (concat (map record_bytes qs))).
    change (len []) with 0 in E. lia.
  - exfalso. apply (f_equal len) in E. unfold records in E.
    cbn [map concat] in E. rewrite len_app, len_record_bytes in E.
    pose proof (len_nonneg p). pose proof (len_nonneg (concat (map record_bytes ps))).
    change (len []) with 0 in E. lia.
  - inversion Hps as [|? ? Hp Hps']. inversion Hqs as [|? ? Hq Hqs']. subst.
    unfold records in E. cbn [map concat] in E.
    destruct (record_bytes_app_inj _ _ _ _ Hp Hq E) as [-> E'].
    f_equal. now apply IH.
Qed.

Lemma encoded_records (ps bs : list bytes) :
  Forall2 (fun p b => exists w w', encode_entry p w = (Ok b, w')) ps bs ->
  Forall (fun p => len p < 2 ^ 64) ps /\ bs = map record_bytes ps.
Proof.
  induction 1 as [|p b ps bs (w & w' & Hrun) _ [IHfit IHbs]].
  - split; [constructor | reflexivity].
  - destruct (encode_entry_ok_inv _ _ _ _ Hrun) as [Hfit ->].
    split; [now constructor|]. cbn [map]. now rewrite IHbs.
Qed.

(** X5. The records are a code for the payloads. The buffers that
    [random_entry] builds are written one after the other with nothing
    between them, and still two lists of payloads whose buffers make the
    same bytes when concatenated are the same list: the length field
    tells where each record ends. *)
Theorem records_determine_payloads (ps qs bs cs : list bytes) :
  Forall2 (fun p b => exists w w', encode_entry p w = (Ok b, w')) ps bs ->
  Forall2 (fun q c => exists w w', encode_entry q w = (Ok c, w')) qs cs ->
  concat bs = concat cs ->
  ps = qs /\ bs = cs.
Proof.
  intros Hps Hqs Hcat.
  destruct (encoded_records _ _ Hps) as [Hfitp ->].
  destruct (encoded_records _ _ Hqs) as [Hfitq ->].
  assert (ps = qs) as -> by now apply records_inj.
  split; reflexivity.
Qed.

Lemma records_determine_payloads_witness :
  [bytes_of_string "abc"; []] = [bytes_of_string "abc"; []] /\
  [record_bytes (bytes_of_string "abc"); record_bytes []]
  = [record_bytes (bytes_of_string "abc"); record_bytes []].
Proof.
  apply (records_determine_payloads
           [bytes_of_string "abc"; []] [bytes_of_string "abc"; []]
           [record_bytes (bytes_of_string "abc"); record_bytes []]
           [record_bytes (bytes_of_string "abc"); record_bytes []]).
  - repeat constructor; exists quiet_world; eexists; vm_compute; reflexivity.
  - repeat constructor; exists quiet_world; eexists; vm_compute; reflexivity.
  - reflexivity.
Defined.

Lemma records_size_bounds (offers : list (bytes * bytes)) :
  38 * Z.of_nat (length offers) <= records_size (payloads offers)
  <= 65573 * Z.of_nat (length offers).
Proof.
  induction offers as [|offer offers IH]; [cbn; lia|].
  unfold payloads in *. cbn [map length]. rewrite records_size_cons.
  pose proof (payload_bound offer) as (_ & Hlen & Hmax). lia.
Qed.

(** X6. A completed run of [count] turns leaves [total] between
    [38 * count] and [65573 * count]: every record is at least its 38
    bytes of digest and length and at most 65535 bytes of payload more.
    The file on disk is no longer than [total], and short of it by no
    more than the size of the buffer. *)
Theorem total_bounds (count : nat) (w w' : World) :
  generate count w = (Ok tt, w') ->
  exists t,
    var_total w' = Some t /\
    38 * Z.of_nat count <= t <= 65573 * Z.of_nat count /\
    t - Z.of_nat (buffer_size w) <= len (disk_at w' target) <= t.
Proof.
  intros Hrun.
  destruct (generate_inv _ _ _ _ Hrun)
    as [(_ & Hr & _)
       | [(offers & wn & _ & Hlen & _ & Hdone & ->)
         | (e & _ & _ & Hr & _)]]; try discriminate.
  exists (records_size (payloads offers)).
  pose proof (ac_lag _ _ _ _ (turns_done_accounted _ _ _ Hdone)) as Hlag.
  rewrite (sd_size _ _ _ Hdone) in Hlag.
  unfold disk_at in *. world_simpl.
  split; [exact (sd_total _ _ _ Hdone)|].
  split; [rewrite <- Hlen; apply records_size_bounds | exact Hlag].
Qed.

Lemma total_bounds_witness :
  exists t,
    var_total (snd (generate 2 two_turn_world)) = Some t /\
    38 * Z.of_nat 2 <= t <= 65573 * Z.of_nat 2 /\
    t - Z.of_nat (buffer_size two_turn_world)
    <= len (disk_at (snd (generate 2 two_turn_world)) target) <= t.
Proof.
  apply (total_bounds 2 two_turn_world (snd (generate 2 two_turn_world))).
  vm_compute. reflexivity.
Defined.

(** ** The record of a draw, at the edges *)

Lemma random_entry_runs (o1 o2 : bytes) (rest : list (option bytes)) (w : World) :
  entropy w = Some o1 :: Some o2 :: rest ->
  exists w',
    random_entry w = (Ok (record_bytes (payload_of (o1, o2))), w') /\
    entropy w' = rest /\
    fs w' = fs w /\
    history w' = history w ++
      [ EvGetrandom 2 (Some (firstn 2 o1));
        EvGetrandom (int_from_bytes_little (firstn 2 o1))
                    (Some (payload_of (o1, o2)));
        EvPrint (record_line (payload_of (o1, o2))) ].
Proof.
  intros Hent. destruct (random_entry w) as [r w'] eqn:Hrun.
  pose proof (random_entry_inv _ _ _ Hrun) as Hinv. destruct r as [b|e].
  - destruct Hinv as (p1 & p2 & rest' & E & -> & ->).
    rewrite Hent in E. injection E as <- <- <-.
    eexists. split; [reflexivity|]. world_simpl.
    split; [reflexivity|]. split; [reflexivity | history_assoc].
  - exfalso. destruct Hinv as [_ Hfail].
    exact (df_cause _ _ Hfail o1 o2 rest Hent).
Qed.

Lemma le_digits_zero (k : nat) : le_digits k 0 = repeat x00 k.
Proof.
  induction k as [|k IH]; [reflexivity|].
  cbn [le_digits repeat]. change (0 / 256) with 0. now rewrite IH.
Qed.

(** Written wider than the bytes it was read from, a number is those
    bytes followed by zero bytes. *)
Lemma le_digits_pad (b : bytes) (k : nat) :
  le_digits (length b + k) (int_from_bytes_little b) = b ++ repeat x00 k.
Proof.
  induction b as [|x rest IH]; [apply le_digits_zero|].
  cbn [length Nat.add le_digits int_from_bytes_little app].
  pose proof (byte_val_range x) as Hx.
  set (r := int_from_bytes_little rest) in *.
  assert (Hm : (byte_val x + 256 * r) mod 256 = byte_val x).
  { replace (byte_val x + 256 * r) with (byte_val x + r * 256) by lia.
    rewrite Z.mod_add by lia. apply Z.mod_small. lia. }
  assert (Hd : (byte_val x + 256 * r) / 256 = r).
  { replace (byte_val x + 256 * r) with (byte_val x + r * 256) by lia.
    rewrite Z.div_add by lia. rewrite Z.div_small by lia. lia. }
  f_equal.
  - rewrite <- byte_of_mod, Hm. apply byte_of_val.
  - rewrite Hd. exact IH.
Qed.

(** X7. The empty payload is no special case. When the size bytes decode
    to zero, which includes a read of the size that returned no byte at
    all, [random_entry] still makes the second read, asking for 0 bytes,
    and returns the 38-byte record of the empty payload, the digest of
    the empty byte string followed by eight zero bytes, whatever the
    source had on offer for the content. *)
Theorem empty_payload_record (o1 o2 : bytes) (rest : list (option bytes))
    (w : World) :
  entropy w = Some o1 :: Some o2 :: rest ->
  int_from_bytes_little (firstn 2 o1) = 0 ->
  exists w',
    random_entry w = (Ok (hash_data [] ++ repeat x00 8), w') /\
    len (hash_data [] ++ repeat x00 8) = 38 /\
    entropy w' = rest /\
    history w' = history w ++
      [ EvGetrandom 2 (Some (firstn 2 o1));
        EvGetrandom 0 (Some []);
        EvPrint (record_line []) ].
Proof.
  intros Hent Hzero.
  destruct (random_entry_runs _ _ _ _ Hent) as (w' & Hrun & Hrest & _ & Hhist).
  assert (Hp : payload_of (o1, o2) = []).
  { unfold payload_of, draw_of. cbn [fst snd]. now rewrite Hzero. }
  rewrite Hp, Hzero in Hhist. rewrite Hp in Hrun.
  exists w'. split; [exact Hrun|].
  split; [|split; [exact Hrest | exact Hhist]].
  change (hash_data [] ++ repeat x00 8) with (record_bytes []).
  now rewrite len_record_bytes.
Qed.

Lemma empty_payload_record_witness :
  exists w',
    random_entry (with_entropy [Some []; Some [x07]] quiet_world)
      = (Ok (hash_data [] ++ repeat x00 8), w') /\
    len (hash_data [] ++ repeat x00 8) = 38 /\
    entropy w' = [] /\
    history w' = history (with_entropy [Some []; Some [x07]] quiet_world) ++
      [ EvGetrandom 2 (Some (firstn 2 []));
        EvGetrandom 0 (Some []);
        EvPrint (record_line []) ].
Proof.
  apply (empty_payload_record [] [x07] []
           (with_entropy [Some []; Some [x07]] quiet_world)).
  - reflexivity.
  - reflexivity.
Defined.

(** X8. The length field of a record repeats the size bytes that were
    drawn. When the random source hands over two bytes [b0], [b1] for
    the size and at least [b0 + 256 * b1] bytes of content, the record
    is the digest, then [b0], [b1] and six zero bytes, then the first
    [b0 + 256 * b1] bytes of the content: what [int.from_bytes] read at
    the draw, [to_bytes] writes back, in the same byte order, widened
    to 8 bytes. *)
Theorem length_field_repeats_size_bytes (b0 b1 : byte) (content : bytes)
    (rest : list (option bytes)) (w : World) :
  entropy w = Some [b0; b1] :: Some content :: rest ->
  byte_val b0 + 256 * byte_val b1 <= len content ->
  exists w',
    random_entry w =
      (Ok (hash_data (firstn (Z.to_nat (byte_val b0 + 256 * byte_val b1)) content)
           ++ [b0; b1; x00; x00; x00; x00; x00; x00]
           ++ firstn (Z.to_nat (byte_val b0 + 256 * byte_val b1)) content),
       w') /\
    len (firstn (Z.to_nat (byte_val b0 + 256 * byte_val b1)) content)
      = byte_val b0 + 256 * byte_val b1.
Proof.
  intros Hent Hlen.
  destruct (random_entry_runs _ _ _ _ Hent) as (w' & Hrun & _).
  pose proof (byte_val_range b0). pose proof (byte_val_range b1).
  assert (Hsize : int_from_bytes_little [b0; b1]
                  = byte_val b0 + 256 * byte_val b1)
    by (cbn [int_from_bytes_little]; lia).
  assert (Hp : payload_of ([b0; b1], content)
               = firstn (Z.to_nat (byte_val b0 + 256 * byte_val b1)) content).
  { unfold payload_of, draw_of. cbn [fst snd firstn]. now rewrite Hsize. }
  assert (Hl : len (firstn (Z.to_nat (byte_val b0 + 256 * byte_val b1)) content)
               = byte_val b0 + 256 * byte_val b1).
  { unfold len in *. rewrite length_firstn. lia. }
  exists w'. split; [|exact Hl].
  rewrite Hrun, Hp. unfold record_bytes. rewrite Hl, <- Hsize.
  pose proof (le_digits_pad [b0; b1] 6) as Hpad.
  cbn [length Nat.add] in Hpad. rewrite Hpad. reflexivity.
Qed.

Lemma length_field_repeats_size_bytes_witness :
  exists w',
    random_entry two_turn_world =
      (Ok (hash_data (firstn (Z.to_nat (byte_val x03 + 256 * byte_val x00))
                        (bytes_of_string "abcd"))
           ++ [x03; x00; x00; x00; x00; x00; x00; x00]
           ++ firstn (Z.to_nat (byte_val x03 + 256 * byte_val x00))
                (bytes_of_string "abcd")),
       w') /\
    len (firstn (Z.to_nat (byte_val x03 + 256 * byte_val x00))
           (bytes_of_string "abcd"))
      = byte_val x03 + 256 * byte_val x00.
Proof.
  apply (length_field_repeats_size_bytes x03 x00 (bytes_of_string "abcd")
           [Some [x00; x00]; Some []] two_turn_world).
  - reflexivity.
  - vm_compute. discriminate.
Defined.

(** X9. A short read of the content shortens the record, it does not
    corrupt it. When the random source returns fewer bytes of content
    than the size drawn, the payload is all that was returned, and the
    length field holds the length of that payload, not the size drawn. *)
Theorem short_read_keeps_record_consistent (o1 o2 : bytes)
    (rest : list (option bytes)) (w : World) :
  entropy w = Some o1 :: Some o2 :: rest ->
  len o2 < int_from_bytes_little (firstn 2 o1) ->
  exists w',
    random_entry w = (Ok (hash_data o2 ++ le_digits 8 (len o2) ++ o2), w') /\
    int_from_bytes_little (le_digits 8 (len o2)) = len o2 /\
    int_from_bytes_little (le_digits 8 (len o2))
      < int_from_bytes_little (firstn 2 o1).
Proof.
  intros Hent Hshort.
  destruct (random_entry_runs _ _ _ _ Hent) as (w' & Hrun & _).
  pose proof (size_bound o1) as [Hs0 Hs1].
  assert (Hp : payload_of (o1, o2) = o2).
  { unfold payload_of, draw_of. cbn [fst snd]. apply firstn_all2.
    unfold len in Hshort. lia. }
  assert (Hfield : int_from_bytes_little (le_digits 8 (len o2)) = len o2).
  { apply int_from_le_digits_small.
    change (256 ^ Z.of_nat 8) with (2 ^ 64). pose proof (len_nonneg o2). lia. }
  exists w'. rewrite Hrun, Hp. split; [reflexivity|].
  split; [exact Hfield | now rewrite Hfield].
Qed.

Lemma short_read_keeps_record_consistent_witness :
  exists w',
    random_entry short_read_world
      = (Ok (hash_data [x61] ++ le_digits 8 (len [x61]) ++ [x61]), w') /\
    int_from_bytes_little (le_digits 8 (len [x61])) = len [x61] /\
    int_from_bytes_little (le_digits 8 (len [x61]))
      < int_from_bytes_little (firstn 2 [x05; x00]).
Proof.
  apply (short_read_keeps_record_consistent [x05; x00] [x61] [] short_read_world).
  - reflexivity.
  - vm_compute. reflexivity.
Defined.
